(** * solana-edition-fixer: a shallow embedding of [src/index.js]

    The development follows the pipeline of the program:
    lockfile parser, version comparator, issue detector, remediation
    generators, fix executor and the [analyze] entry point.

    Conventions of the embedding.
    - A JavaScript string is a [string]: a sequence of code units, here
      restricted to the code units below 256.
    - A JavaScript Number that holds an integer is a [Number]: [NaN], a
      finite integer that a double represents, or an infinity.
    - A JavaScript exception is the [Throw] outcome of the [Outcome] type.
    - Console output ([log], [console.log]) is not modelled: it never
      changes a returned value. *)

From Stdlib Require Import ZArith NArith Ascii String List Bool Lia Permutation.
From stdpp Require Import base option gmap strings list.

Local Open Scope Z_scope.

(* ================================================================= *)
(** ** Characters and strings *)

(** The double quote and the line feed, as one-character strings. *)
Definition dquote_char : ascii := "034"%char.
Definition newline_char : ascii := "010"%char.
Definition dq : string := String dquote_char EmptyString.
Definition nl : string := String newline_char EmptyString.

(** Code-unit classes.  [is_ws] is the class [\s] of regular expressions,
    which is also the white space that [parseInt] skips: TAB, LF, VT, FF,
    CR, SP and NBSP are its members below 256. *)
Definition code (c : ascii) : N := N_of_ascii c.

Definition is_ws (c : ascii) : bool :=
  let n := code c in
  ((9 <=? n) && (n <=? 13) || (n =? 32) || (n =? 160))%N.

Definition is_digit (c : ascii) : bool :=
  let n := code c in ((48 <=? n) && (n <=? 57))%N.

Definition digit_value (c : ascii) : N := (code c - 48)%N.

(** A string is truthy when it is not empty. *)
Definition truthy_string (s : string) : bool :=
  match s with EmptyString => false | String _ _ => true end.

(** [s.split(sep)] for a one-character separator.  The result always has
    at least one element. *)
Fixpoint split (sep : ascii) (s : string) : list string :=
  match s with
  | EmptyString => [EmptyString]
  | String c r =>
      if Ascii.eqb c sep then EmptyString :: split sep r
      else match split sep r with
           | h :: t => String c h :: t
           | [] => [String c EmptyString]
           end
  end.

(** [arr[0]] on an array of strings; [split] never returns the empty
    array, on which JavaScript would give [undefined]. *)
Definition first (l : list string) : string :=
  match l with x :: _ => x | [] => EmptyString end.

(** [arr.join(sep)]. *)
Fixpoint join (sep : string) (l : list string) : string :=
  match l with
  | [] => EmptyString
  | [x] => x
  | x :: r => x +:+ sep +:+ join sep r
  end.

(** [s.startsWith(p)], returning the rest of [s] after [p]. *)
Fixpoint strip_prefix (p s : string) : option string :=
  match p, s with
  | EmptyString, _ => Some s
  | String a p', String b s' =>
      if Ascii.eqb a b then strip_prefix p' s' else None
  | String _ _, EmptyString => None
  end.

(** [s.includes(needle)]. *)
Fixpoint includes (needle s : string) : bool :=
  match strip_prefix needle s with
  | Some _ => true
  | None => match s with
            | EmptyString => false
            | String _ r => includes needle r
            end
  end.

(** Greedy [\s*]: the string after its leading white space. *)
Fixpoint skip_ws (s : string) : string :=
  match s with
  | String c r => if is_ws c then skip_ws r else s
  | EmptyString => EmptyString
  end.

(* ================================================================= *)
(** ** Numbers *)

(** The Number values that the comparator can meet.  [Fin z] is a finite
    integer ([-0] and [0] are both [Fin 0]: the program never tells them
    apart). *)
Inductive Number : Type :=
| NaN
| Fin (z : Z)
| Infinity (negative : bool).

(** ToBoolean on a Number. *)
Definition truthy (x : Number) : bool :=
  match x with
  | NaN => false
  | Fin z => negb (z =? 0)
  | Infinity _ => true
  end.

(** [x || d] on Numbers. *)
Definition num_or (x d : Number) : Number := if truthy x then x else d.

(** [arr[i] || d]: an index out of range reads [undefined], which is
    falsy. *)
Definition index_or (arr : list Number) (i : nat) (d : Number) : Number :=
  match arr !! i with
  | Some x => num_or x d
  | None => d
  end.

(** [a < b] and [a > b] on Numbers; any comparison with NaN is false. *)
Definition num_lt (a b : Number) : bool :=
  match a, b with
  | NaN, _ | _, NaN => false
  | Fin x, Fin y => x <? y
  | Fin _, Infinity neg => negb neg
  | Infinity neg, Fin _ => neg
  | Infinity n1, Infinity n2 => n1 && negb n2
  end.

Definition num_gt (a b : Number) : bool := num_lt b a.

(** The double nearest to the natural number [m] (ties to even), or
    [None] when it overflows to Infinity.  Integers below 2^53 are
    exact. *)
Definition round_double (m : N) : option N :=
  (if m <? 2 ^ 53 then Some m
   else
     let e := N.log2 m - 52 in
     let q := N.shiftr m e in
     let r := N.land m (N.ones e) in
     let half := N.shiftl 1 (e - 1) in
     let q' := if (half <? r) || ((r =? half) && N.odd q) then q + 1 else q in
     let v := N.shiftl q' e in
     if 2 ^ 1024 <=? v then None else Some v)%N.

Definition number_of_int (negative : bool) (m : N) : Number :=
  match round_double m with
  | Some v => Fin (if negative then - Z.of_N v else Z.of_N v)
  | None => Infinity negative
  end.

(** The leading decimal digits of a string. *)
Fixpoint digits_prefix (s : string) : list N :=
  match s with
  | String c r => if is_digit c then digit_value c :: digits_prefix r else []
  | EmptyString => []
  end.

Definition digits_value (ds : list N) : N :=
  fold_left (fun acc d => 10 * acc + d)%N ds 0%N.

(** [parseInt(s, 10)]: skip white space, read an optional sign, then the
    longest run of decimal digits; NaN when there is no digit. *)
Definition parseInt (s : string) : Number :=
  let s1 := skip_ws s in
  let '(negative, s2) :=
    match s1 with
    | String c r =>
        if Ascii.eqb c "-" then (true, r)
        else if Ascii.eqb c "+" then (false, r)
        else (false, s1)
    | EmptyString => (false, s1)
    end in
  match digits_prefix s2 with
  | [] => NaN
  | ds => number_of_int negative (digits_value ds)
  end.

(* ================================================================= *)
(** ** Version comparator *)

(** [v.split('-')[0].split('+')[0]]. *)
Definition clean (v : string) : string :=
  first (split "+" (first (split "-" v))).

(** [clean.split('.').map(s => parseInt(s, 10) || 0)]. *)
Definition parts (v : string) : list Number :=
  map (fun s => num_or (parseInt s) (Fin 0)) (split "." (clean v)).

(** The [for] loop of [compareVersions]: [n] iterations remain and [i] is
    the loop index. *)
Fixpoint compare_loop (parts1 parts2 : list Number) (n i : nat) : Z :=
  match n with
  | O => 0
  | S n' =>
      let p1 := index_or parts1 i (Fin 0) in
      let p2 := index_or parts2 i (Fin 0) in
      if num_gt p1 p2 then 1
      else if num_lt p1 p2 then -1
      else compare_loop parts1 parts2 n' (S i)
  end.

Definition compareVersions (v1 v2 : string) : Z :=
  let parts1 := parts v1 in
  let parts2 := parts v2 in
  compare_loop parts1 parts2 (Nat.max (length parts1) (length parts2)) 0.

(* ================================================================= *)
(** ** Lockfile parser *)

(** A record of the parser's output: [name] and [version] are set,
    [source] may be absent. *)
Record PackageRecord : Type := {
  pkg_name : string;
  pkg_version : string;
  pkg_source : option string
}.

(** The object [currentPackage] while a block is scanned: it starts as
    [{}] and gains fields. *)
Record Partial : Type := {
  p_name : option string;
  p_version : option string;
  p_source : option string
}.

Definition empty_partial : Partial :=
  {| p_name := None; p_version := None; p_source := None |}.

(** The longest prefix without a double quote, and the rest. *)
Fixpoint span_unquoted (s : string) : string * string :=
  match s with
  | String c r =>
      if Ascii.eqb c dquote_char then (EmptyString, s)
      else let '(v, rest) := span_unquoted r in (String c v, rest)
  | EmptyString => (EmptyString, EmptyString)
  end.

(** The pattern [key\s*=] at the start of [s]; the rest of [s] after the
    equals sign. *)
Definition match_key (key s : string) : option string :=
  match strip_prefix key s with
  | Some r1 =>
      match skip_ws r1 with
      | String c r2 => if Ascii.eqb c "=" then Some r2 else None
      | EmptyString => None
      end
  | None => None
  end.

(** The pattern of the parser at the start of [s]: [key], white space,
    an equals sign, white space, and a quoted group of one or more
    characters other than the double quote; the result is the group.
    Every quantifier of the pattern is followed by a character
    outside its class, so the greedy match is the only match. *)
Definition match_field (key s : string) : option string :=
  match match_key key s with
  | Some r2 =>
      match skip_ws r2 with
      | String c r3 =>
          if Ascii.eqb c dquote_char then
            match span_unquoted r3 with
            | (String v0 v, String _ _) => Some (String v0 v)
            | _ => None
            end
          else None
      | EmptyString => None
      end
  | None => None
  end.

(** [if (m) obj.field = m[1]]. *)
Definition assign (m old : option string) : option string :=
  match m with Some v => Some v | None => old end.

(** The body of the [else if (currentPackage)] branch. *)
Definition scan_line (line : string) (cur : Partial) : Partial :=
  let nameMatch := match_field "name" line in
  let versionMatch := match_field "version" line in
  let sourceMatch := match_field "source" line in
  {| p_name := assign nameMatch (p_name cur);
     p_version := assign versionMatch (p_version cur);
     p_source := assign sourceMatch (p_source cur) |}.

(** [currentPackage && currentPackage.name && currentPackage.version],
    with the record that [packages.push(currentPackage)] appends. *)
Definition complete (cur : option Partial) : option PackageRecord :=
  match cur with
  | Some p =>
      match p_name p, p_version p with
      | Some n, Some v =>
          if truthy_string n && truthy_string v
          then Some {| pkg_name := n; pkg_version := v; pkg_source := p_source p |}
          else None
      | _, _ => None
      end
  | None => None
  end.

(** [packages.push(x)] when the guard holds. *)
Definition push_complete (packages : list PackageRecord) (cur : option Partial)
  : list PackageRecord :=
  match complete cur with
  | Some r => packages ++ [r]
  | None => packages
  end.

Definition delimiter : string := "[[package]]".

(** The [for (const line of lines)] loop and the push after it. *)
Fixpoint parse_lines (lines : list string) (packages : list PackageRecord)
    (cur : option Partial) : list PackageRecord :=
  match lines with
  | [] => push_complete packages cur
  | line :: rest =>
      if String.eqb line delimiter then
        parse_lines rest (push_complete packages cur) (Some empty_partial)
      else
        match cur with
        | Some p => parse_lines rest packages (Some (scan_line line p))
        | None => parse_lines rest packages None
        end
  end.

(** [parseCargoLock] from the point where [content] has been read. *)
Definition parse_content (content : string) : list PackageRecord :=
  parse_lines (split newline_char content) [] None.

(* ================================================================= *)
(** ** Compatibility table and issue detector *)

(** An entry of [database.crates].  The table is not part of the sources
    that are modelled; it is a parameter of the detector.  In an entry
    only [maxCompatible] is required. *)
Record CrateInfo : Type := {
  crate_maxCompatible : string;
  crate_firstIncompatible : option string;
  crate_reason : option string;
  crate_usedBy : option (list string);
  crate_priority : option string
}.

Record Issue : Type := {
  name : string;
  currentVersion : string;
  maxCompatible : string;
  firstIncompatible : option string;
  reason : string;
  usedBy : list string;
  source : option string
}.

(** The outcome of a computation that may throw. *)
Inductive Outcome (A : Type) : Type :=
| Ok (a : A)
| Throw (msg : string).
Arguments Ok {A} a.
Arguments Throw {A} msg.

(** The property names that every object inherits from
    [Object.prototype]. *)
Definition object_prototype_keys : list string :=
  [ "constructor"; "hasOwnProperty"; "isPrototypeOf"; "propertyIsEnumerable";
    "toLocaleString"; "toString"; "valueOf"; "__proto__";
    "__defineGetter__"; "__defineSetter__";
    "__lookupGetter__"; "__lookupSetter__" ].

(** What [crates[key]] evaluates to: an entry of the table, a member of
    [Object.prototype] (a function or an object: truthy, and without a
    [maxCompatible] property), or [undefined]. *)
Inductive Property : Type :=
| OwnEntry (c : CrateInfo)
| Inherited
| Undefined.

Definition get_property (crates : gmap string CrateInfo) (key : string) : Property :=
  match crates !! key with
  | Some c => OwnEntry c
  | None =>
      if bool_decide (key ∈ object_prototype_keys) then Inherited else Undefined
  end.

(** [crateInfo.reason || 'Requires edition 2024']. *)
Definition reason_or_default (r : option string) : string :=
  match r with
  | Some s => if truthy_string s then s else "Requires edition 2024"
  | None => "Requires edition 2024"
  end.

(** [crateInfo.usedBy || []]: an array, even empty, is truthy. *)
Definition usedBy_or_default (u : option (list string)) : list string :=
  match u with Some l => l | None => [] end.

Definition make_issue (pkg : PackageRecord) (crateInfo : CrateInfo) : Issue :=
  {| name := pkg_name pkg;
     currentVersion := pkg_version pkg;
     maxCompatible := crate_maxCompatible crateInfo;
     firstIncompatible := crate_firstIncompatible crateInfo;
     reason := reason_or_default (crate_reason crateInfo);
     usedBy := usedBy_or_default (crate_usedBy crateInfo);
     source := pkg_source pkg |}.

(** The message of the TypeError of [compareVersions(v1, undefined)],
    raised by [v2.split]. *)
Definition split_of_undefined : string :=
  "Cannot read properties of undefined (reading 'split')".

(** The [for (const pkg of packages)] loop; [issues] is the array built
    so far. *)
Fixpoint detect_loop (crates : gmap string CrateInfo)
    (packages : list PackageRecord) (issues : list Issue) : Outcome (list Issue) :=
  match packages with
  | [] => Ok issues
  | pkg :: rest =>
      match get_property crates (pkg_name pkg) with
      | OwnEntry crateInfo =>
          let comparison :=
            compareVersions (pkg_version pkg) (crate_maxCompatible crateInfo) in
          if 0 <? comparison
          then detect_loop crates rest (issues ++ [make_issue pkg crateInfo])
          else detect_loop crates rest issues
      | Inherited => Throw split_of_undefined
      | Undefined => detect_loop crates rest issues
      end
  end.

Definition findProblematicDeps (crates : gmap string CrateInfo)
    (packages : list PackageRecord) : Outcome (list Issue) :=
  detect_loop crates packages [].

(* ================================================================= *)
(** ** Remediation generators *)

Definition update_command (issue : Issue) : string :=
  "cargo update -p " +:+ name issue +:+ " --precise " +:+ maxCompatible issue.

Definition generateCargoUpdateCommands (issues : list Issue) : list string :=
  map update_command issues.

Definition patch_header : string := "[patch.crates-io]".

Definition patch_line (issue : Issue) : string :=
  name issue +:+ " = " +:+ dq +:+ "=" +:+ maxCompatible issue +:+ dq.

(** The [for] loop of [generatePatchSection], pushing onto [lines]. *)
Fixpoint patch_loop (issues : list Issue) (lines : list string) : list string :=
  match issues with
  | [] => lines
  | issue :: rest => patch_loop rest (lines ++ [patch_line issue])
  end.

Definition generatePatchSection (issues : list Issue) : string :=
  join nl (patch_loop issues [patch_header]).

Definition generateCargoConfig : string :=
  join nl
    [ "# Cargo configuration for Solana/Anchor compatibility";
      "# Generated by solana-edition-fixer";
      "# https://github.com/volta-team/solana-edition-fixer";
      EmptyString;
      "[resolver]";
      "# MSRV-aware resolver - prefer versions compatible with rust-version";
      "# Requires Cargo 1.84+ to have effect";
      "incompatible-rust-versions = " +:+ dq +:+ "fallback" +:+ dq;
      EmptyString;
      "[net]";
      "# Use git CLI for fetching (more reliable on some systems)";
      "git-fetch-with-cli = true";
      EmptyString;
      "[registries.crates-io]";
      "# Use sparse registry protocol (faster and more stable)";
      "protocol = " +:+ dq +:+ "sparse" +:+ dq;
      EmptyString;
      "[build]";
      "# Recommended for Solana builds";
      "rustflags = [" +:+ dq +:+ "-C" +:+ dq +:+ ", " +:+ dq
        +:+ "target-cpu=sbfv2" +:+ dq +:+ "]";
      EmptyString ].

(* ================================================================= *)
(** ** The environment: file system, paths and subprocesses *)

(** [stdio: options.verbose ? 'inherit' : 'pipe']. *)
Inductive Stdio : Type := Inherit | Pipe.

(** What [spawnSync] returns, as far as the program reads it: [status]
    is [null] when the process did not exit by itself, [stderr] is
    [null] when the stream is inherited. *)
Record SpawnResult : Type := {
  status : option Z;
  stderr : option string
}.

(** The calls that the program makes to the environment, in the order
    in which it makes them. *)
Inductive Event : Type :=
| EvExists (path : string)
| EvRead (path : string)
| EvMkdir (path : string)
| EvWrite (path content : string)
| EvSpawn (command : string) (args : list string) (cwd : string) (stdio : Stdio).

(** The modules [fs], [path] and [child_process] of the platform, over
    an abstract state of the world [W].  Each call that can fail returns
    an [Outcome]; a call that can change the world returns the new one. *)
Class Sys (W : Type) : Type := {
  existsSync : string -> W -> bool;
  readFileSync : string -> W -> Outcome string;
  mkdirSync : string -> W -> Outcome unit * W;
  writeFileSync : string -> string -> W -> Outcome unit * W;
  spawnSync : string -> list string -> string -> Stdio -> W
              -> Outcome SpawnResult * W;
  path_join : list string -> string;
  path_resolve : string -> W -> string
}.

(** The state that effectful code threads: the world and the trace of
    the calls made so far (most recent last). *)
Record St (W : Type) : Type := mkSt {
  world : W;
  trace : list Event
}.
Arguments mkSt {W} world trace.
Arguments world {W} s.
Arguments trace {W} s.

(** Computations with state and exceptions. *)
Definition M (W A : Type) : Type := St W -> Outcome A * St W.

Definition ret {W A} (a : A) : M W A := fun s => (Ok a, s).

Definition throw {W A} (msg : string) : M W A := fun s => (Throw msg, s).

Definition bind {W A B} (m : M W A) (k : A -> M W B) : M W B :=
  fun s =>
    match m s with
    | (Ok a, s') => k a s'
    | (Throw msg, s') => (Throw msg, s')
    end.

(** [try { m } catch (err) { handler(err.message) }]: what [m] did to
    the world before it threw stays done. *)
Definition try_catch {W A} (m : M W A) (handler : string -> M W A) : M W A :=
  fun s =>
    match m s with
    | (Ok a, s') => (Ok a, s')
    | (Throw msg, s') => handler msg s'
    end.

Notation "'let*' x ':=' m 'in' k" := (bind m (fun x => k))
  (at level 10, x name, m at level 200, k at level 200).

Definition lift_outcome {W A} (o : Outcome A) : M W A := fun s => (o, s).

Definition record {W} (e : Event) : M W unit :=
  fun s => (Ok tt, mkSt (world s) (trace s ++ [e])).

Section Program.
Context {W : Type} `{Sys W}.

Definition fs_existsSync (p : string) : M W bool :=
  let* _ := record (EvExists p) in
  fun s => (Ok (existsSync p (world s)), s).

Definition fs_readFileSync (p : string) : M W string :=
  let* _ := record (EvRead p) in
  fun s => (readFileSync p (world s), s).

Definition fs_mkdirSync (p : string) : M W unit :=
  let* _ := record (EvMkdir p) in
  fun s => let '(o, w) := mkdirSync p (world s) in (o, mkSt w (trace s)).

Definition fs_writeFileSync (p content : string) : M W unit :=
  let* _ := record (EvWrite p content) in
  fun s => let '(o, w) := writeFileSync p content (world s) in (o, mkSt w (trace s)).

Definition child_spawnSync (command : string) (args : list string)
    (cwd : string) (stdio : Stdio) : M W SpawnResult :=
  let* _ := record (EvSpawn command args cwd stdio) in
  fun s => let '(o, w) := spawnSync command args cwd stdio (world s) in
           (o, mkSt w (trace s)).

(** [path.resolve] reads the working directory of the process. *)
Definition resolve (p : string) : M W string :=
  fun s => (Ok (path_resolve p (world s)), s).

(* ----------------------------------------------------------------- *)
(** *** parseCargoLock *)

(** [null] is [None]: no lockfile. *)
Definition parseCargoLock (lockPath : string) : M W (option (list PackageRecord)) :=
  let* present := fs_existsSync lockPath in
  if negb present then ret None
  else
    let* content := fs_readFileSync lockPath in
    ret (Some (parse_content content)).

(* ----------------------------------------------------------------- *)
(** *** checkCargoToml *)

(** [regex.test(s)] and [s.match(regex)] for a pattern that is not
    anchored: the leftmost start position where the pattern matches. *)
Fixpoint search {A : Type} (pattern : string -> option A) (s : string) : option A :=
  match pattern s with
  | Some x => Some x
  | None => match s with
            | String _ r => search pattern r
            | EmptyString => None
            end
  end.

(** [{ exists: false }], or the record of the manifest's signals. *)
Inductive CargoTomlInfo : Type :=
| TomlAbsent
| TomlPresent (hasRustVersion : bool) (rustVersion : option string)
              (hasPatchSection : bool) (path : string).

Definition checkCargoToml (projectPath : string) : M W CargoTomlInfo :=
  let cargoTomlPath := path_join [projectPath; "Cargo.toml"] in
  let* present := fs_existsSync cargoTomlPath in
  if negb present then ret TomlAbsent
  else
    let* content := fs_readFileSync cargoTomlPath in
    let hasRustVersion :=
      match search (match_key "rust-version") content with
      | Some _ => true | None => false end in
    let hasPatchSection := includes "[patch.crates-io]" content in
    let rustVersion := search (match_field "rust-version") content in
    ret (TomlPresent hasRustVersion rustVersion hasPatchSection cargoTomlPath).

(* ----------------------------------------------------------------- *)
(** *** applyFixes *)

Record Options : Type := {
  quiet : bool;
  verbose : bool
}.

Record Failure : Type := {
  fail_name : string;
  fail_error : string
}.

Record FixResults : Type := {
  updated : list string;
  failed : list Failure;
  skipped : list string;
  configCreated : bool;
  cargoTomlUpdated : bool
}.

Definition initial_results : FixResults :=
  {| updated := []; failed := []; skipped := [];
     configCreated := false; cargoTomlUpdated := false |}.

Definition set_configCreated (r : FixResults) : FixResults :=
  {| updated := updated r; failed := failed r; skipped := skipped r;
     configCreated := true; cargoTomlUpdated := cargoTomlUpdated r |}.

Definition push_updated (r : FixResults) (n : string) : FixResults :=
  {| updated := updated r ++ [n]; failed := failed r; skipped := skipped r;
     configCreated := configCreated r; cargoTomlUpdated := cargoTomlUpdated r |}.

Definition push_skipped (r : FixResults) (n : string) : FixResults :=
  {| updated := updated r; failed := failed r; skipped := skipped r ++ [n];
     configCreated := configCreated r; cargoTomlUpdated := cargoTomlUpdated r |}.

Definition push_failed (r : FixResults) (f : Failure) : FixResults :=
  {| updated := updated r; failed := failed r ++ [f]; skipped := skipped r;
     configCreated := configCreated r; cargoTomlUpdated := cargoTomlUpdated r |}.

(** Step 1: create [.cargo/config.toml] if it does not exist. *)
Definition config_step (projectPath : string) (results : FixResults) : M W FixResults :=
  let cargoConfigPath := path_join [projectPath; ".cargo"; "config.toml"] in
  let cargoDir := path_join [projectPath; ".cargo"] in
  let* present := fs_existsSync cargoConfigPath in
  if negb present then
    try_catch
      (let* dirPresent := fs_existsSync cargoDir in
       let* _ := (if negb dirPresent then fs_mkdirSync cargoDir else ret tt) in
       let* _ := fs_writeFileSync cargoConfigPath generateCargoConfig in
       ret (set_configCreated results))
      (fun _ => ret results)
  else ret results.

(** [result.status === 0]. *)
Definition status_is_zero (r : SpawnResult) : bool :=
  match status r with Some z => z =? 0 | None => false end.

(** [result.stderr && result.stderr.includes('not found')]. *)
Definition stderr_not_found (r : SpawnResult) : bool :=
  match stderr r with
  | Some s => truthy_string s && includes "not found" s
  | None => false
  end.

(** [result.stderr || 'Unknown error']. *)
Definition stderr_or_unknown (r : SpawnResult) : string :=
  match stderr r with
  | Some s => if truthy_string s then s else "Unknown error"
  | None => "Unknown error"
  end.

Definition update_args (issue : Issue) : list string :=
  ["update"; "-p"; name issue; "--precise"; maxCompatible issue].

(** The body of the loop of step 2, for one issue. *)
Definition fix_issue (projectPath : string) (options : Options)
    (issue : Issue) (results : FixResults) : M W FixResults :=
  try_catch
    (let* result :=
       child_spawnSync "cargo" (update_args issue) projectPath
         (if verbose options then Inherit else Pipe) in
     if status_is_zero result then ret (push_updated results (name issue))
     else if stderr_not_found result then ret (push_skipped results (name issue))
     else ret (push_failed results
                 {| fail_name := name issue;
                    fail_error := stderr_or_unknown result |}))
    (fun message =>
       ret (push_failed results
              {| fail_name := name issue; fail_error := message |})).

(** Step 2: [for (const issue of issues)]. *)
Fixpoint fix_loop (projectPath : string) (options : Options)
    (issues : list Issue) (results : FixResults) : M W FixResults :=
  match issues with
  | [] => ret results
  | issue :: rest =>
      let* results' := fix_issue projectPath options issue results in
      fix_loop projectPath options rest results'
  end.

Definition applyFixes (projectPath : string) (issues : list Issue)
    (options : Options) : M W FixResults :=
  let* results := config_step projectPath initial_results in
  fix_loop projectPath options issues results.

(* ----------------------------------------------------------------- *)
(** *** analyze *)

(** The three shapes of the object that [analyze] returns. *)
Inductive AnalysisResult : Type :=
| NoManifest (error : string)
| NoLockfile (error : string) (cargoTomlInfo : CargoTomlInfo)
| Analysis (projectPath : string) (totalPackages : nat) (issues : list Issue)
           (cargoTomlInfo : CargoTomlInfo) (commands : list string)
           (patchSection : string).

Definition success (r : AnalysisResult) : bool :=
  match r with
  | Analysis _ _ _ _ _ _ => true
  | _ => false
  end.

Definition error (r : AnalysisResult) : option string :=
  match r with
  | NoManifest e | NoLockfile e _ => Some e
  | Analysis _ _ _ _ _ _ => None
  end.

Definition cargoTomlInfo (r : AnalysisResult) : option CargoTomlInfo :=
  match r with
  | NoManifest _ => None
  | NoLockfile _ i | Analysis _ _ _ i _ _ => Some i
  end.

Definition analyze (crates : gmap string CrateInfo) (projectPath : string)
    : M W AnalysisResult :=
  let cargoLockPath := path_join [projectPath; "Cargo.lock"] in
  let cargoTomlPath := path_join [projectPath; "Cargo.toml"] in
  let* present := fs_existsSync cargoTomlPath in
  if negb present then
    let* resolved := resolve projectPath in
    ret (NoManifest ("No Cargo.toml found in " +:+ resolved))
  else
    let* info := checkCargoToml projectPath in
    let* packages := parseCargoLock cargoLockPath in
    match packages with
    | None =>
        ret (NoLockfile "No Cargo.lock found. Run `cargo generate-lockfile` first."
               info)
    | Some packages =>
        let* issues := lift_outcome (findProblematicDeps crates packages) in
        let* resolved := resolve projectPath in
        ret (Analysis resolved (length packages) issues info
               (generateCargoUpdateCommands issues)
               (generatePatchSection issues))
    end.

End Program.

(* ================================================================= *)
(** ** An in-memory environment *)

(** A small world on which the program can be run: files with their
    content, directories, a read-only switch that makes every write
    fail, and the scripted outcomes of the subprocesses still to come
    (when the script is exhausted, a subprocess exits with status 0). *)
Record MemWorld : Type := {
  files : gmap string string;
  dirs : list string;
  read_only : bool;
  script : list (Outcome SpawnResult)
}.

Definition mem_exists (p : string) (w : MemWorld) : bool :=
  match files w !! p with
  | Some _ => true
  | None => bool_decide (p ∈ dirs w)
  end.

Definition mem_read (p : string) (w : MemWorld) : Outcome string :=
  match files w !! p with
  | Some c => Ok c
  | None => Throw ("ENOENT: no such file or directory, open '" +:+ p +:+ "'")
  end.

Definition mem_mkdir (p : string) (w : MemWorld) : Outcome unit * MemWorld :=
  if read_only w then (Throw ("EROFS: read-only file system, mkdir '" +:+ p +:+ "'"), w)
  else (Ok tt, {| files := files w; dirs := p :: dirs w;
                  read_only := read_only w; script := script w |}).

Definition mem_write (p content : string) (w : MemWorld) : Outcome unit * MemWorld :=
  if read_only w then (Throw ("EROFS: read-only file system, open '" +:+ p +:+ "'"), w)
  else (Ok tt, {| files := <[p := content]> (files w); dirs := dirs w;
                  read_only := read_only w; script := script w |}).

Definition mem_spawn (command : string) (args : list string) (cwd : string)
    (stdio : Stdio) (w : MemWorld) : Outcome SpawnResult * MemWorld :=
  match script w with
  | o :: rest => (o, {| files := files w; dirs := dirs w;
                        read_only := read_only w; script := rest |})
  | [] => (Ok {| status := Some 0; stderr := Some EmptyString |}, w)
  end.

#[export] Instance mem_sys : Sys MemWorld := {
  existsSync := mem_exists;
  readFileSync := mem_read;
  mkdirSync := mem_mkdir;
  writeFileSync := mem_write;
  spawnSync := mem_spawn;
  path_join := join "/";
  path_resolve := fun p _ => "/work/" +:+ p
}.

Definition run {A : Type} (m : M MemWorld A) (w : MemWorld) : Outcome A * St MemWorld :=
  m (mkSt w []).

(* ================================================================= *)
(** ** The specification's reading of each component *)

(** *** Version comparator (section 4.3) *)

(** The version without its pre-release or build suffix: the characters
    before the first [-] or [+]. *)
Fixpoint strip_suffix (v : string) : string :=
  match v with
  | String c r =>
      if Ascii.eqb c "-" || Ascii.eqb c "+" then EmptyString
      else String c (strip_suffix r)
  | EmptyString => EmptyString
  end.

(** A numeric component: one or more characters, all decimal digits. *)
Fixpoint all_digits (s : string) : bool :=
  match s with
  | String c r => is_digit c && all_digits r
  | EmptyString => true
  end.

Definition is_numeric (s : string) : bool := truthy_string s && all_digits s.

(** The component as the specification words it: its number when it is
    numeric, zero when it is not. *)
Definition claimed_component (s : string) : Number :=
  if is_numeric s then number_of_int false (digits_value (digits_prefix s))
  else Fin 0.

(** The component as read from its leading digits: white space is
    skipped, the longest run of decimal digits that follows is the
    number, and a component without such a run is zero. *)
Definition leading_number (s : string) : Number :=
  match digits_prefix (skip_ws s) with
  | [] => Fin 0
  | ds => number_of_int false (digits_value ds)
  end.

(** Missing trailing components are zero. *)
Definition pad (n : nat) (l : list Number) : list Number :=
  l ++ replicate (n - length l) (Fin 0).

(** Left to right, the first differing component decides. *)
Fixpoint lex_compare (l1 l2 : list Number) : Z :=
  match l1, l2 with
  | x :: r1, y :: r2 =>
      if num_lt y x then 1
      else if num_lt x y then -1
      else lex_compare r1 r2
  | _, _ => 0
  end.

Definition compare_with (component : string -> Number) (v1 v2 : string) : Z :=
  let c1 := map component (split "." (strip_suffix v1)) in
  let c2 := map component (split "." (strip_suffix v2)) in
  let n := Nat.max (length c1) (length c2) in
  lex_compare (pad n c1) (pad n c2).

Definition claimed_compareVersions : string -> string -> Z :=
  compare_with claimed_component.

Definition spec_compareVersions : string -> string -> Z :=
  compare_with leading_number.

(** *** Lockfile parser (section 4.1) *)

(** The lines cut at every delimiter line: the first segment is what
    precedes the first delimiter, each later segment is one block. *)
Fixpoint segments (lines : list string) : list (list string) :=
  match lines with
  | [] => [[]]
  | line :: rest =>
      if String.eqb line delimiter then [] :: segments rest
      else match segments rest with
           | seg :: segs => (line :: seg) :: segs
           | [] => [[line]]
           end
  end.

Definition blocks (lines : list string) : list (list string) :=
  tail (segments lines).

(** The value of a field in a block: the capture of the last line of
    the block that matches the field's pattern. *)
Definition field_of (key : string) (block : list string) : option string :=
  last (omap (match_field key) block).

(** A block contains a field when one of its lines matches the field's
    pattern. *)
Definition has_field (key : string) (block : list string) : bool :=
  existsb (fun line => match match_field key line with
                       | Some _ => true
                       | None => false
                       end) block.

Definition has_name_and_version (block : list string) : bool :=
  has_field "name" block && has_field "version" block.

(** The record of a block that has both a name and a version. *)
Definition block_record (block : list string) : option PackageRecord :=
  match field_of "name" block, field_of "version" block with
  | Some n, Some v =>
      Some {| pkg_name := n; pkg_version := v;
              pkg_source := field_of "source" block |}
  | _, _ => None
  end.

(** The partial record [p] holds the fields of the lines [seen] of the
    block that is being scanned. *)
Definition holds (seen : list string) (p : Partial) : Prop :=
  p_name p = field_of "name" seen /\
  p_version p = field_of "version" seen /\
  p_source p = field_of "source" seen.

Definition spec_parse (content : string) : list PackageRecord :=
  omap block_record (blocks (split newline_char content)).

(** *** Issue detector (section 4.4) *)

(** The issue of a package, when its name is a key of the table and its
    version is strictly greater than the entry's [maxCompatible]. *)
Definition issue_of (crates : gmap string CrateInfo) (pkg : PackageRecord)
  : option Issue :=
  match crates !! pkg_name pkg with
  | Some crateInfo =>
      if 0 <? compareVersions (pkg_version pkg) (crate_maxCompatible crateInfo)
      then Some (make_issue pkg crateInfo)
      else None
  | None => None
  end.

(** A package name that reads a member of [Object.prototype] from the
    table instead of an entry. *)
Definition reads_inherited (crates : gmap string CrateInfo) (pkg : PackageRecord)
  : bool :=
  match get_property crates (pkg_name pkg) with
  | Inherited => true
  | _ => false
  end.

(** *** Fix executor (section 4.6) *)

Definition is_spawn (e : Event) : bool :=
  match e with EvSpawn _ _ _ _ => true | _ => false end.

Definition is_read (e : Event) : bool :=
  match e with EvRead _ => true | _ => false end.

(** The subprocess of one issue. *)
Definition spawn_event (projectPath : string) (options : Options) (issue : Issue)
  : Event :=
  EvSpawn "cargo" ["update"; "-p"; name issue; "--precise"; maxCompatible issue]
    projectPath (if verbose options then Inherit else Pipe).

(** The calls of step 1: the existence test of the configuration file,
    then, when it is absent, the existence test of its directory, the
    creation of the directory when that is absent too, and the write of
    the file. *)
Definition config_calls {W : Type} `{Sys W} (projectPath : string) : list Event :=
  let cargoConfigPath := path_join [projectPath; ".cargo"; "config.toml"] in
  let cargoDir := path_join [projectPath; ".cargo"] in
  [ EvExists cargoConfigPath; EvExists cargoDir; EvMkdir cargoDir;
    EvWrite cargoConfigPath generateCargoConfig ].

(** Every name that the aggregate classifies. *)
Definition classified (r : FixResults) : list string :=
  updated r ++ skipped r ++ map fail_name (failed r).

(** A field without a line feed. *)
Definition single_line (s : string) : Prop :=
  includes nl s = false.

(** *** Lockfile text *)

Definition carriage_return : ascii := "013"%char.

(** [s.endsWith(c)] for one character. *)
Fixpoint ends_with (c : ascii) (s : string) : bool :=
  match s with
  | EmptyString => false
  | String a EmptyString => Ascii.eqb a c
  | String _ r => ends_with c r
  end.

(** The number of delimiter lines of a list of lines. *)
Definition count_delimiters (lines : list string) : nat :=
  length (List.filter (fun line => String.eqb line delimiter) lines).

(** A field value that the parser's pattern can capture whole: it is
    not empty and holds neither a double quote nor a line feed. *)
Definition valid_field (s : string) : Prop :=
  s <> EmptyString /\ includes dq s = false /\ single_line s.

Definition valid_record (r : PackageRecord) : Prop :=
  valid_field (pkg_name r) /\ valid_field (pkg_version r) /\
  (forall s : string, pkg_source r = Some s -> valid_field s).

(** A line of the form [key = <quote>value<quote>]. *)
Definition quoted_line (key value : string) : string :=
  key +:+ " = " +:+ dq +:+ value +:+ dq.

(** A line that the parser passes over inside a block: it is not the
    delimiter and matches none of the three patterns. *)
Definition inert (line : string) : Prop :=
  String.eqb line delimiter = false /\
  match_field "name" line = None /\
  match_field "version" line = None /\
  match_field "source" line = None.

(** The block of a record in a lockfile: the delimiter, the name, the
    version, the source when there is one, then the other lines of the
    block (checksum, dependencies, blank lines). *)
Definition render_package (entry : PackageRecord * list string) : list string :=
  [delimiter; quoted_line "name" (pkg_name (fst entry));
   quoted_line "version" (pkg_version (fst entry))]
  ++ match pkg_source (fst entry) with
     | Some s => [quoted_line "source" s]
     | None => []
     end
  ++ snd entry.

(** The text of a lockfile: the lines of a header, then the blocks. *)
Definition render_lock (header : list string)
    (entries : list (PackageRecord * list string)) : string :=
  join nl (header ++ concat (map render_package entries)).

(** The command line of a subprocess call: the command and its
    arguments, separated by spaces. *)
Definition command_line (e : Event) : option string :=
  match e with
  | EvSpawn command args _ _ => Some (join " " (command :: args))
  | _ => None
  end.

(** An environment without failure: no file exists, every write and
    every directory creation succeeds, every subprocess exits with
    status 0.  Its world is the number of subprocesses started. *)
#[export] Instance calm_sys : Sys nat := {
  existsSync := fun _ _ => false;
  readFileSync := fun p _ => Throw ("ENOENT: no such file or directory, open '" +:+ p +:+ "'");
  mkdirSync := fun _ n => (Ok tt, n);
  writeFileSync := fun _ _ n => (Ok tt, n);
  spawnSync := fun _ _ _ _ n =>
    (Ok {| status := Some 0; stderr := Some EmptyString |}, S n);
  path_join := join "/";
  path_resolve := fun p _ => "/work/" +:+ p
}.

(* ================================================================= *)
(** ** The command line entry point *)

(** [run(args)], with its printing left out: what it reads from its
    arguments, which of [analyze] and [applyFixes] it calls, and how it
    ends.  The module keeps the name [run] apart from the runner of the
    in-memory environment. *)
Module Cli.

(** [args.includes(flag)]. *)
Definition includes_arg (args : list string) (flag : string) : bool :=
  existsb (String.eqb flag) args.

(** The object [options] of [run]. *)
Record Flags : Type := {
  flag_fix : bool;
  flag_dryRun : bool;
  flag_check : bool;
  flag_verbose : bool;
  flag_quiet : bool;
  flag_json : bool;
  flag_help : bool;
  flag_version : bool
}.

Definition parse_flags (args : list string) : Flags :=
  {| flag_fix := includes_arg args "--fix" || includes_arg args "-f";
     flag_dryRun := includes_arg args "--dry-run" || includes_arg args "-d";
     flag_check := includes_arg args "--check" || includes_arg args "-c";
     flag_verbose := includes_arg args "--verbose" || includes_arg args "-v";
     flag_quiet := includes_arg args "--quiet" || includes_arg args "-q";
     flag_json := includes_arg args "--json";
     flag_help := includes_arg args "--help" || includes_arg args "-h";
     flag_version := includes_arg args "--version" |}.

(** [arg.startsWith('-')]. *)
Definition starts_with_dash (arg : string) : bool :=
  match arg with
  | String c _ => Ascii.eqb c "-"
  | EmptyString => false
  end.

(** [args.find(arg => !arg.startsWith('-')) || '.']: the empty string,
    which [find] can return, is falsy. *)
Definition project_path (args : list string) : string :=
  match List.find (fun arg => negb (starts_with_dash arg)) args with
  | Some arg => if truthy_string arg then arg else "."
  | None => "."
  end.

(** What [applyFixes] reads of the object [options]. *)
Definition fix_options (flags : Flags) : Options :=
  {| quiet := flag_quiet flags; verbose := flag_verbose flags |}.

(** How a call of [run] ends when it raises nothing: it returns, or it
    calls [process.exit(code)]. *)
Inductive Termination : Type :=
| Returned
| Exited (code : Z).

(** [result.issues && result.issues.length > 0]. *)
Definition has_issues (r : AnalysisResult) : bool :=
  match r with
  | Analysis _ _ (_ :: _) _ _ _ => true
  | _ => false
  end.

Section Run.
Context {W : Type} `{Sys W}.

Definition run (crates : gmap string CrateInfo) (args : list string)
    : M W Termination :=
  let options := parse_flags args in
  let projectPath := project_path args in
  if flag_version options then ret Returned
  else if flag_help options then ret Returned
  else
    let* result := analyze crates projectPath in
    if flag_json options then
      if flag_check options && has_issues result then ret (Exited 1)
      else ret Returned
    else
      match result with
      | NoManifest _ | NoLockfile _ _ => ret (Exited 1)
      | Analysis _ _ issues _ _ _ =>
          match issues with
          | [] => ret Returned
          | _ :: _ =>
              if flag_check options then ret (Exited 1)
              else if flag_fix options then
                let* fixResults :=
                  applyFixes projectPath issues (fix_options options) in
                ret Returned
              else ret Returned
          end
      end.

End Run.

(** The exit code of the process: 0 after a return, the argument of
    [process.exit], 1 after an exception that nothing catches. *)
Definition exit_code (o : Outcome Termination) : Z :=
  match o with
  | Ok Returned => 0
  | Ok (Exited code) => code
  | Throw _ => 1
  end.

End Cli.

(** *** The words of the parser's contract, stated on their own

    The definitions below use neither the parser's line splitter nor
    its pattern matcher: they say what a line, white space and a field
    line are. *)

(** The line feed and the double quote, by their codes. *)
Definition line_break : string := String (ascii_of_nat 10) EmptyString.
Definition quote_mark : string := String (ascii_of_nat 34) EmptyString.

(** The text whose lines are [lines]. *)
Fixpoint unlines (lines : list string) : string :=
  match lines with
  | [] => EmptyString
  | [line] => line
  | line :: rest => line +:+ line_break +:+ unlines rest
  end.

(** White space below 256: TAB, LF, VT, FF, CR, SP and NBSP. *)
Definition blank_char (c : ascii) : bool :=
  existsb (Nat.eqb (nat_of_ascii c)) [9; 10; 11; 12; 13; 32; 160]%nat.

Fixpoint blank (s : string) : bool :=
  match s with
  | EmptyString => true
  | String c r => blank_char c && blank r
  end.

(** [line] is a field line for [key] with value [value]: the key at
    the start of the line, optional white space, an equals sign,
    optional white space, then the value between double quotes, the
    value being not empty and without double quote; anything may
    follow the closing quote. *)
Definition field_line (key line value : string) : Prop :=
  exists ws1 ws2 rest : string,
    line = key +:+ ws1 +:+ "=" +:+ ws2 +:+ quote_mark +:+ value
           +:+ quote_mark +:+ rest /\
    blank ws1 = true /\ blank ws2 = true /\
    value <> EmptyString /\
    (forall a b : string, value <> a +:+ quote_mark +:+ b).

(** A string without [-] and without [+]. *)
Fixpoint sign_free (s : string) : bool :=
  match s with
  | String c r => negb (Ascii.eqb c "-" || Ascii.eqb c "+") && sign_free r
  | EmptyString => true
  end.

(* ================================================================= *)
(** * Properties *)

(** ** Strings *)

Lemma split_not_nil (c : ascii) (s : string) : split c s <> [].
Proof.
  destruct s as [|a r]; simpl; [discriminate|].
  destruct (Ascii.eqb a c); [discriminate|].
  destruct (split c r); discriminate.
Qed.

Lemma first_split_cons (c a : ascii) (s : string) :
  first (split c (String a s)) =
  if Ascii.eqb a c then EmptyString else String a (first (split c s)).
Proof.
  simpl. destruct (Ascii.eqb a c); [reflexivity|].
  pose proof (split_not_nil c s) as Hne.
  destruct (split c s); [contradiction|reflexivity].
Qed.

Lemma clean_strip_suffix (v : string) : clean v = strip_suffix v.
Proof.
  unfold clean. induction v as [|a r IH].
  - reflexivity.
  - rewrite first_split_cons. cbn [strip_suffix].
    destruct (Ascii.eqb a "-") eqn:Ha; [reflexivity|].
    rewrite first_split_cons.
    destruct (Ascii.eqb a "+") eqn:Hb; [reflexivity|].
    cbn [orb]. now rewrite IH.
Qed.

Lemma strip_suffix_sign_free (v : string) : sign_free (strip_suffix v) = true.
Proof.
  induction v as [|a r IH]; simpl; [reflexivity|].
  destruct (Ascii.eqb a "-" || Ascii.eqb a "+") eqn:E; simpl; [reflexivity|].
  now rewrite E, IH.
Qed.

Lemma split_sign_free (c : ascii) (s : string) :
  sign_free s = true -> Forall (fun x => sign_free x = true) (split c s).
Proof.
  induction s as [|a r IH]; simpl; intros Hs.
  - repeat constructor.
  - apply andb_prop in Hs as [Ha Hr]. specialize (IH Hr).
    destruct (Ascii.eqb a c).
    + constructor; [reflexivity|assumption].
    + destruct (split c r) as [|h t].
      * constructor; [simpl; now rewrite Ha|constructor].
      * inversion IH; subst. constructor; [simpl|assumption].
        now rewrite Ha.
Qed.

Lemma strip_suffix_append (a suffix : string) (sep : ascii) :
  Ascii.eqb sep "-" || Ascii.eqb sep "+" = true ->
  strip_suffix (a +:+ String sep suffix) = strip_suffix a.
Proof.
  intros Hsep. induction a as [|c r IH]; simpl.
  - now rewrite Hsep.
  - now rewrite IH.
Qed.

(** ** Numbers *)

Lemma num_lt_irrefl (a : Number) : num_lt a a = false.
Proof.
  destruct a as [|z|[]]; simpl; try reflexivity. apply Z.ltb_irrefl.
Qed.

Lemma num_lt_asym (a b : Number) : num_lt a b = true -> num_lt b a = false.
Proof.
  destruct a as [|x|[]], b as [|y|[]]; simpl; try congruence.
  intros Hlt. apply Z.ltb_lt in Hlt. apply Z.ltb_ge. lia.
Qed.

Lemma number_of_int_or_zero (negative : bool) (m : N) :
  num_or (number_of_int negative m) (Fin 0) = number_of_int negative m.
Proof.
  unfold num_or, number_of_int.
  destruct (round_double m) as [v|]; simpl; [|reflexivity].
  destruct (Z.eqb_spec (if negative then - Z.of_N v else Z.of_N v) 0) as [E|E];
    simpl; [now rewrite E|reflexivity].
Qed.

Lemma leading_number_or_zero (s : string) :
  num_or (leading_number s) (Fin 0) = leading_number s.
Proof.
  unfold leading_number. destruct (digits_prefix (skip_ws s)); [reflexivity|].
  apply number_of_int_or_zero.
Qed.

Lemma skip_ws_sign_free (s : string) :
  sign_free s = true -> sign_free (skip_ws s) = true.
Proof.
  induction s as [|a r IH]; simpl; [reflexivity|].
  intros Hs. destruct (is_ws a); [|exact Hs].
  apply andb_prop in Hs as [_ Hr]. now apply IH.
Qed.

(** On a component without a sign, [parseInt(s, 10) || 0] reads the
    leading digits. *)
Lemma parseInt_or_zero (s : string) :
  sign_free s = true -> num_or (parseInt s) (Fin 0) = leading_number s.
Proof.
  intros Hs. apply skip_ws_sign_free in Hs.
  unfold parseInt, leading_number.
  destruct (skip_ws s) as [|c r] eqn:E.
  - reflexivity.
  - simpl in Hs. apply andb_prop in Hs as [Hc _].
    apply negb_true_iff, orb_false_iff in Hc as [Hm Hp].
    rewrite Hm, Hp.
    destruct (digits_prefix (String c r)); [reflexivity|].
    apply number_of_int_or_zero.
Qed.

Lemma parts_leading_numbers (v : string) :
  parts v = map leading_number (split "." (strip_suffix v)).
Proof.
  unfold parts. rewrite clean_strip_suffix.
  pose proof (split_sign_free "." _ (strip_suffix_sign_free v)) as HF.
  induction HF as [|x l Hx _ IH]; simpl; [reflexivity|].
  now rewrite parseInt_or_zero, IH.
Qed.

(** ** The loop of the comparator *)

Lemma index_or_tail (l : list Number) (i : nat) (d : Number) :
  index_or l (S i) d = index_or (tail l) i d.
Proof. destruct l; reflexivity. Qed.

Lemma compare_loop_shift (p1 p2 : list Number) (n i : nat) :
  compare_loop p1 p2 n (S i) = compare_loop (tail p1) (tail p2) n i.
Proof.
  revert i. induction n as [|n IH]; intros i; simpl; [reflexivity|].
  rewrite !index_or_tail, IH. reflexivity.
Qed.

Lemma pad_nil_succ (n : nat) : pad (S n) [] = Fin 0 :: pad n [].
Proof. unfold pad. simpl. now rewrite Nat.sub_0_r. Qed.

Lemma pad_cons (n : nat) (x : Number) (l : list Number) :
  pad (S n) (x :: l) = x :: pad n l.
Proof. reflexivity. Qed.

Lemma compare_loop_lex (n : nat) : forall p1 p2 : list Number,
  Forall (fun x => num_or x (Fin 0) = x) p1 ->
  Forall (fun x => num_or x (Fin 0) = x) p2 ->
  (length p1 <= n)%nat -> (length p2 <= n)%nat ->
  compare_loop p1 p2 n 0 = lex_compare (pad n p1) (pad n p2).
Proof.
  induction n as [|n IH]; intros p1 p2 H1 H2 L1 L2.
  - destruct p1; [|simpl in L1; lia]. destruct p2; [|simpl in L2; lia].
    reflexivity.
  - cbn [compare_loop]. rewrite compare_loop_shift. unfold num_gt.
    destruct p1 as [|x r1], p2 as [|y r2]; simpl in L1, L2;
      rewrite ?pad_nil_succ, ?pad_cons; cbn [lex_compare tail];
      unfold index_or; cbn [lookup list_lookup];
      try (inversion H1 as [|? ? Hx H1']; subst; rewrite Hx);
      try (inversion H2 as [|? ? Hy H2']; subst; rewrite Hy);
      repeat match goal with |- context [if ?b then _ else _] =>
               destruct b; try reflexivity end;
      apply IH; simpl; auto; lia.
Qed.

Lemma compare_loop_range (p1 p2 : list Number) (n i : nat) :
  compare_loop p1 p2 n i = 1 \/ compare_loop p1 p2 n i = -1
  \/ compare_loop p1 p2 n i = 0.
Proof.
  revert i. induction n as [|n IH]; intros i; simpl; [auto|].
  destruct (num_gt _ _); [auto|]. destruct (num_lt _ _); auto.
Qed.

Lemma compare_loop_antisym (p1 p2 : list Number) (n i : nat) :
  0 < compare_loop p1 p2 n i <-> compare_loop p2 p1 n i < 0.
Proof.
  revert i. induction n as [|n IH]; intros i; simpl; [lia|].
  unfold num_gt.
  destruct (num_lt (index_or p2 i (Fin 0)) (index_or p1 i (Fin 0))) eqn:E1.
  - rewrite (num_lt_asym _ _ E1). lia.
  - destruct (num_lt (index_or p1 i (Fin 0)) (index_or p2 i (Fin 0))); [lia|].
    apply IH.
Qed.

Lemma compare_loop_refl (p : list Number) (n i : nat) :
  compare_loop p p n i = 0.
Proof.
  revert i. induction n as [|n IH]; intros i; simpl; [reflexivity|].
  unfold num_gt. rewrite num_lt_irrefl. apply IH.
Qed.

Lemma parts_append_suffix (a suffix : string) (sep : ascii) :
  Ascii.eqb sep "-" || Ascii.eqb sep "+" = true ->
  parts (a +:+ String sep suffix) = parts a.
Proof.
  intros Hsep. unfold parts.
  now rewrite !clean_strip_suffix, strip_suffix_append.
Qed.

(** ** Version comparator: the claims *)

(** C2. [compareVersions] is antisymmetric: [compareVersions a b > 0]
    exactly when [compareVersions b a < 0]; a version compares equal to
    itself; a pre-release suffix ([-...]) or a build suffix ([+...])
    added to a version changes no comparison, so the suffixed version
    compares equal to the bare one, as [1.2.0-beta] does to [1.2.0]. *)
Theorem compareVersions_antisymmetric :
  (forall a b : string, 0 < compareVersions a b <-> compareVersions b a < 0) /\
  (forall a : string, compareVersions a a = 0) /\
  (forall a b suffix : string,
     compareVersions (a +:+ "-" +:+ suffix) b = compareVersions a b /\
     compareVersions (a +:+ "+" +:+ suffix) b = compareVersions a b) /\
  (forall a suffix : string,
     compareVersions (a +:+ "-" +:+ suffix) a = 0 /\
     compareVersions (a +:+ "+" +:+ suffix) a = 0) /\
  compareVersions "1.2.0-beta" "1.2.0" = 0.
Proof.
  assert (Hsuffix : forall a b suffix : string,
     compareVersions (a +:+ "-" +:+ suffix) b = compareVersions a b /\
     compareVersions (a +:+ "+" +:+ suffix) b = compareVersions a b).
  { intros a b suffix. unfold compareVersions.
    change ("-" +:+ suffix) with (String "-" suffix).
    change ("+" +:+ suffix) with (String "+" suffix).
    rewrite !parts_append_suffix by reflexivity. split; reflexivity. }
  assert (Hrefl : forall a : string, compareVersions a a = 0).
  { intros a. unfold compareVersions. apply compare_loop_refl. }
  split; [|split; [|split; [|split]]].
  - intros a b. unfold compareVersions.
    rewrite (Nat.max_comm (length (parts b))). apply compare_loop_antisym.
  - exact Hrefl.
  - exact Hsuffix.
  - intros a suffix. destruct (Hsuffix a a suffix) as [H1 H2].
    rewrite H1, H2, Hrefl. split; reflexivity.
  - reflexivity.
Qed.

(** C3, as the specification words it, fails: a component that is not
    numeric but starts with digits is not read as zero.  The second
    component of [1.2x] is read as 2, so [1.2x] is greater than [1.1],
    where the specification's reading (zero) makes it smaller. *)
Lemma compareVersions_non_numeric_not_zero :
  is_numeric "2x" = false /\
  compareVersions "1.2x" "1.1" = 1 /\
  claimed_compareVersions "1.2x" "1.1" = -1 /\
  compareVersions "1.2x" "1.1" <> claimed_compareVersions "1.2x" "1.1".
Proof. repeat split; try reflexivity. discriminate. Qed.

(** C3, amended.  For every pair of version strings, [compareVersions]
    strips the suffix that starts at the first [-] or [+], splits the
    rest on dots, reads every component from its leading decimal digits
    (after optional white space; zero when there is no such digit) and
    compares the components as numbers from left to right, a missing
    trailing component being zero.  It returns 1, -1 or 0 on all string
    inputs and raises no error. *)
Theorem compareVersions_algorithm (v1 v2 : string) :
  compareVersions v1 v2 = spec_compareVersions v1 v2 /\
  (compareVersions v1 v2 = 1 \/ compareVersions v1 v2 = -1
   \/ compareVersions v1 v2 = 0).
Proof.
  split; [|apply compare_loop_range].
  unfold compareVersions, spec_compareVersions, compare_with.
  rewrite !parts_leading_numbers.
  assert (Hnormal : forall l : list string,
    Forall (fun x => num_or x (Fin 0) = x) (map leading_number l)).
  { induction l; constructor; auto using leading_number_or_zero. }
  apply compare_loop_lex; try lia; apply Hnormal.
Qed.

(** ** Lockfile parser *)

Lemma segments_not_nil (lines : list string) : segments lines <> [].
Proof.
  destruct lines as [|l r]; simpl; [discriminate|].
  destruct (String.eqb l delimiter); [discriminate|].
  destruct (segments r); discriminate.
Qed.

Lemma match_field_truthy (key s v : string) :
  match_field key s = Some v -> truthy_string v = true.
Proof.
  unfold match_field. destruct (match_key key s) as [r2|]; [|discriminate].
  destruct (skip_ws r2) as [|c r3]; [discriminate|].
  destruct (Ascii.eqb c dquote_char); [|discriminate].
  destruct (span_unquoted r3) as [[|v0 v'] [|q rest]]; try discriminate.
  intros [= <-]. reflexivity.
Qed.

Lemma field_of_snoc (key : string) (seen : list string) (line : string) :
  field_of key (seen ++ [line]) = assign (match_field key line) (field_of key seen).
Proof.
  unfold field_of. rewrite omap_app. simpl.
  destruct (match_field key line) as [v|]; simpl.
  - apply last_snoc.
  - now rewrite app_nil_r.
Qed.

Lemma field_of_truthy (key : string) (block : list string) (v : string) :
  field_of key block = Some v -> truthy_string v = true.
Proof.
  unfold field_of. intros Hl. apply last_Some_elem_of in Hl.
  apply list_elem_of_omap in Hl as (line & _ & Hm).
  eapply match_field_truthy, Hm.
Qed.

Lemma field_of_has_field (key : string) (block : list string) :
  is_Some (field_of key block) <-> has_field key block = true.
Proof.
  unfold field_of, has_field. rewrite last_is_Some.
  induction block as [|l b IH]; simpl.
  - split; [congruence|discriminate].
  - destruct (match_field key l); simpl; [|exact IH].
    split; [reflexivity|discriminate].
Qed.

Lemma block_record_has_both (block : list string) :
  is_Some (block_record block) <-> has_name_and_version block = true.
Proof.
  unfold block_record, has_name_and_version. rewrite andb_true_iff.
  rewrite <- !field_of_has_field.
  destruct (field_of "name" block), (field_of "version" block); simpl;
    split; intros Hx; try (destruct Hx as [[? ?] [? ?]]; discriminate);
    try (destruct Hx as [? ?]; discriminate); eauto.
Qed.

Lemma holds_empty : holds [] empty_partial.
Proof. repeat split. Qed.

Lemma holds_scan_line (seen : list string) (p : Partial) (line : string) :
  holds seen p -> holds (seen ++ [line]) (scan_line line p).
Proof.
  intros (Hn & Hv & Hs). unfold holds, scan_line. simpl.
  rewrite !field_of_snoc, Hn, Hv, Hs. repeat split.
Qed.

Lemma complete_block_record (seen : list string) (p : Partial) :
  holds seen p -> complete (Some p) = block_record seen.
Proof.
  intros (Hn & Hv & Hs). unfold complete, block_record.
  rewrite Hn, Hv, Hs.
  destruct (field_of "name" seen) as [n|] eqn:En; [|reflexivity].
  destruct (field_of "version" seen) as [v|] eqn:Ev; [|reflexivity].
  now rewrite (field_of_truthy _ _ _ En), (field_of_truthy _ _ _ Ev).
Qed.

Lemma push_complete_block (packages : list PackageRecord)
    (seen : list string) (p : Partial) :
  holds seen p ->
  push_complete packages (Some p) = packages ++ omap block_record [seen].
Proof.
  intros Hp. unfold push_complete. rewrite (complete_block_record _ _ Hp).
  simpl. destruct (block_record seen); simpl; [reflexivity|].
  now rewrite app_nil_r.
Qed.

Lemma parse_lines_in_block (lines : list string) :
  forall (packages : list PackageRecord) (seen : list string) (p : Partial),
  holds seen p ->
  parse_lines lines packages (Some p) =
  packages ++ omap block_record
                (match segments lines with
                 | seg :: segs => (seen ++ seg) :: segs
                 | [] => [seen]
                 end).
Proof.
  induction lines as [|line rest IH]; intros packages seen p Hp.
  - simpl segments. cbn [parse_lines]. rewrite app_nil_r.
    now apply push_complete_block.
  - cbn [parse_lines segments].
    destruct (String.eqb line delimiter).
    + rewrite (IH _ [] empty_partial holds_empty).
      rewrite (push_complete_block _ _ _ Hp), app_nil_r.
      pose proof (segments_not_nil rest) as Hne.
      destruct (segments rest) as [|seg segs]; [contradiction|].
      rewrite <- app_assoc. f_equal.
      exact (eq_sym (omap_app block_record [seen] (seg :: segs))).
    + rewrite (IH _ _ _ (holds_scan_line _ _ line Hp)).
      destruct (segments rest) as [|seg segs].
      * reflexivity.
      * now rewrite <- app_assoc.
Qed.

Lemma parse_lines_before_block (lines : list string) :
  forall packages : list PackageRecord,
  parse_lines lines packages None =
  packages ++ omap block_record (blocks lines).
Proof.
  unfold blocks.
  induction lines as [|line rest IH]; intros packages.
  - simpl. now rewrite app_nil_r.
  - cbn [parse_lines segments].
    destruct (String.eqb line delimiter).
    + rewrite (parse_lines_in_block _ _ [] empty_partial holds_empty).
      pose proof (segments_not_nil rest) as Hne.
      destruct (segments rest) as [|seg segs]; [contradiction|reflexivity].
    + rewrite IH. destruct (segments rest); reflexivity.
Qed.

Lemma parse_content_spec (content : string) :
  parse_content content = spec_parse content.
Proof. apply (parse_lines_before_block _ []). Qed.

Lemma length_omap_filter {A B : Type} (f : A -> option B) (g : A -> bool)
    (l : list A) :
  (forall x, is_Some (f x) <-> g x = true) ->
  length (omap f l) = length (List.filter g l).
Proof.
  intros Hfg. induction l as [|x l IH]; simpl; [reflexivity|].
  specialize (Hfg x).
  destruct (f x) as [y|], (g x); simpl; try exact IH; try exact (f_equal S IH).
  - destruct Hfg as [Hfg _].
    assert (Hs : is_Some (Some y)) by now exists y.
    specialize (Hfg Hs). discriminate.
  - destruct Hfg as [_ Hfg]. destruct (Hfg eq_refl) as [? ?]. discriminate.
Qed.

(** ** Remediation generators *)

(** C5, as the specification words it, fails: the command generated for
    the issue [zeroize] with [maxCompatible] 1.7.0 starts with the name
    of the package manager. *)
Lemma generateCargoUpdateCommands_has_cargo_prefix :
  let issue := {| name := "zeroize"; currentVersion := "1.8.1";
                  maxCompatible := "1.7.0"; firstIncompatible := None;
                  reason := "Requires edition 2024"; usedBy := [];
                  source := None |} in
  generateCargoUpdateCommands [issue] = ["cargo update -p zeroize --precise 1.7.0"]
  /\ generateCargoUpdateCommands [issue] <> ["update -p zeroize --precise 1.7.0"].
Proof. split; [reflexivity|discriminate]. Qed.

(** C5, amended.  For every issue list, [generateCargoUpdateCommands]
    produces exactly one command per issue, in issue-list order, of the
    form [cargo update -p <name> --precise <maxCompatible>] (so a name
    that occurs in several issues gives several commands); for the
    single issue [zeroize] with [maxCompatible] 1.7.0 the command is
    [cargo update -p zeroize --precise 1.7.0]. *)
Theorem generateCargoUpdateCommands_spec (issues : list Issue) :
  length (generateCargoUpdateCommands issues) = length issues /\
  (forall k : nat,
     generateCargoUpdateCommands issues !! k =
     (fun issue => "cargo update -p " +:+ name issue +:+ " --precise "
                   +:+ maxCompatible issue) <$> issues !! k) /\
  (forall (cv : string) (fi : option string) (r : string) (u : list string)
          (src : option string),
     generateCargoUpdateCommands
       [{| name := "zeroize"; currentVersion := cv; maxCompatible := "1.7.0";
           firstIncompatible := fi; reason := r; usedBy := u; source := src |}]
     = ["cargo update -p zeroize --precise 1.7.0"]).
Proof.
  unfold generateCargoUpdateCommands. split; [|split].
  - apply length_map.
  - intros k. apply (list_lookup_fmap update_command).
  - reflexivity.
Qed.

Lemma patch_loop_lines (issues : list Issue) : forall lines : list string,
  patch_loop issues lines = lines ++ map patch_line issues.
Proof.
  induction issues as [|i r IH]; intros lines; simpl.
  - now rewrite app_nil_r.
  - now rewrite IH, <- app_assoc.
Qed.

Lemma includes_char_cons (c a : ascii) (s : string) :
  includes (String c EmptyString) (String a s) =
  Ascii.eqb c a || includes (String c EmptyString) s.
Proof. simpl. destruct (Ascii.eqb c a); reflexivity. Qed.

Lemma includes_char_app (c : ascii) (s t : string) :
  includes (String c EmptyString) (s +:+ t) =
  includes (String c EmptyString) s || includes (String c EmptyString) t.
Proof.
  induction s as [|a r IH].
  - reflexivity.
  - change (String a r +:+ t) with (String a (r +:+ t)).
    rewrite !includes_char_cons, IH. apply orb_assoc.
Qed.

Lemma split_single (c : ascii) (s : string) :
  includes (String c EmptyString) s = false -> split c s = [s].
Proof.
  induction s as [|a r IH]; [reflexivity|].
  rewrite includes_char_cons. intros Hn.
  apply orb_false_iff in Hn as [Ha Hr]. simpl.
  rewrite Ascii.eqb_sym, Ha. now rewrite (IH Hr).
Qed.

Lemma split_append (c : ascii) (s t : string) :
  includes (String c EmptyString) s = false ->
  split c (s +:+ String c t) = s :: split c t.
Proof.
  induction s as [|a r IH].
  - intros _. simpl. now rewrite Ascii.eqb_refl.
  - rewrite includes_char_cons. intros Hn.
    apply orb_false_iff in Hn as [Ha Hr].
    change (String a r +:+ String c t) with (String a (r +:+ String c t)).
    cbn [split]. rewrite Ascii.eqb_sym, Ha. now rewrite (IH Hr).
Qed.

Lemma split_join (l : list string) :
  l <> [] -> Forall single_line l -> split newline_char (join nl l) = l.
Proof.
  intros Hne HF. induction HF as [|x r Hx HF IH]; [contradiction|].
  destruct r as [|y r'].
  - simpl. now apply split_single.
  - change (join nl (x :: y :: r')) with (x +:+ nl +:+ join nl (y :: r')).
    change (nl +:+ join nl (y :: r')) with (String newline_char (join nl (y :: r'))).
    rewrite (split_append _ _ _ Hx). f_equal. now apply IH.
Qed.

Lemma patch_line_single_line (issue : Issue) :
  single_line (name issue) -> single_line (maxCompatible issue) ->
  single_line (patch_line issue).
Proof.
  unfold single_line, patch_line, nl. intros Hn Hm.
  rewrite !includes_char_app, Hn, Hm. reflexivity.
Qed.

Lemma patch_lines_single_line (issues : list Issue) :
  Forall (fun issue => single_line (name issue)
                        /\ single_line (maxCompatible issue)) issues ->
  Forall single_line (map patch_line issues).
Proof.
  induction 1 as [|i r [Hn Hm] _ IH]; simpl; constructor;
    auto using patch_line_single_line.
Qed.

(** C6. For every issue list, [generatePatchSection] returns the header
    line [[patch.crates-io]] followed by exactly one line per issue, in
    issue-list order, of the form [<name> = <quote>=<maxCompatible><quote>],
    the lines being joined by line feeds; for the single issue [blake3]
    with [maxCompatible] 1.5.0 it is the two-line block made of the
    header and of the line for [blake3]. *)
Theorem generatePatchSection_lines (issues : list Issue) :
  generatePatchSection issues =
    join nl ("[patch.crates-io]"
             :: map (fun issue => name issue +:+ " = " +:+ dq +:+ "="
                                  +:+ maxCompatible issue +:+ dq) issues) /\
  (Forall (fun issue => single_line (name issue)
                         /\ single_line (maxCompatible issue)) issues ->
   split newline_char (generatePatchSection issues) =
     "[patch.crates-io]"
     :: map (fun issue => name issue +:+ " = " +:+ dq +:+ "="
                          +:+ maxCompatible issue +:+ dq) issues /\
   length (split newline_char (generatePatchSection issues)) = S (length issues)) /\
  (forall (cv : string) (fi : option string) (r : string) (u : list string)
          (src : option string),
     generatePatchSection
       [{| name := "blake3"; currentVersion := cv; maxCompatible := "1.5.0";
           firstIncompatible := fi; reason := r; usedBy := u; source := src |}]
     = "[patch.crates-io]" +:+ nl +:+ "blake3 = " +:+ dq +:+ "=1.5.0" +:+ dq).
Proof.
  assert (Hgen : generatePatchSection issues =
                 join nl (patch_header :: map patch_line issues)).
  { unfold generatePatchSection. now rewrite patch_loop_lines. }
  split; [exact Hgen|split; [|reflexivity]].
  intros Hfields.
  assert (Hsplit : split newline_char (generatePatchSection issues) =
                   patch_header :: map patch_line issues).
  { rewrite Hgen. apply split_join; [discriminate|].
    constructor; [reflexivity|]. now apply patch_lines_single_line. }
  split; [exact Hsplit|].
  rewrite Hsplit. simpl. now rewrite length_map.
Qed.

Lemma generatePatchSection_lines_witness :
  let issues := [ {| name := "blake3"; currentVersion := "1.8.3";
                     maxCompatible := "1.5.0"; firstIncompatible := None;
                     reason := "Requires edition 2024"; usedBy := [];
                     source := None |};
                  {| name := "zeroize"; currentVersion := "1.8.1";
                     maxCompatible := "1.7.0"; firstIncompatible := None;
                     reason := "Requires edition 2024"; usedBy := [];
                     source := None |} ] in
  Forall (fun issue => single_line (name issue)
                        /\ single_line (maxCompatible issue)) issues /\
  split newline_char (generatePatchSection issues) =
    [ "[patch.crates-io]";
      "blake3 = " +:+ dq +:+ "=1.5.0" +:+ dq;
      "zeroize = " +:+ dq +:+ "=1.7.0" +:+ dq ].
Proof.
  intros issues.
  assert (Hfields : Forall (fun issue => single_line (name issue)
                              /\ single_line (maxCompatible issue)) issues).
  { repeat constructor. }
  split; [exact Hfields|].
  exact (proj1 (proj1 (proj2 (generatePatchSection_lines issues)) Hfields)).
Defined.

(** ** Issue detector *)

Lemma detect_loop_ok (crates : gmap string CrateInfo)
    (packages : list PackageRecord) :
  forall acc issues : list Issue,
  detect_loop crates packages acc = Ok issues ->
  issues = acc ++ omap (issue_of crates) packages.
Proof.
  induction packages as [|pkg rest IH]; intros acc issues; simpl.
  - intros [= <-]. now rewrite app_nil_r.
  - unfold get_property, issue_of.
    destruct (crates !! pkg_name pkg) as [c|].
    + destruct (0 <? compareVersions (pkg_version pkg) (crate_maxCompatible c)).
      * intros Hd. rewrite (IH _ _ Hd), <- app_assoc. reflexivity.
      * apply IH.
    + destruct (bool_decide (pkg_name pkg ∈ object_prototype_keys));
        [discriminate|apply IH].
Qed.

Lemma detect_loop_own (crates : gmap string CrateInfo)
    (packages : list PackageRecord) :
  Forall (fun pkg => reads_inherited crates pkg = false) packages ->
  forall acc : list Issue,
  detect_loop crates packages acc = Ok (acc ++ omap (issue_of crates) packages).
Proof.
  induction 1 as [|pkg rest Hpkg _ IH]; intros acc; simpl.
  - now rewrite app_nil_r.
  - unfold reads_inherited, get_property in Hpkg. unfold issue_of, get_property.
    destruct (crates !! pkg_name pkg) as [c|].
    + destruct (0 <? compareVersions (pkg_version pkg) (crate_maxCompatible c)).
      * rewrite IH, <- app_assoc. reflexivity.
      * apply IH.
    + destruct (bool_decide (pkg_name pkg ∈ object_prototype_keys));
        [discriminate|apply IH].
Qed.

(** When no package name reads a member of [Object.prototype], the
    detector returns the issues of exactly the packages whose name is a
    key of the table and whose version is strictly greater than the
    entry's [maxCompatible], in the order of the packages. *)
Lemma findProblematicDeps_own_names (crates : gmap string CrateInfo)
    (packages : list PackageRecord) :
  Forall (fun pkg => reads_inherited crates pkg = false) packages ->
  findProblematicDeps crates packages = Ok (omap (issue_of crates) packages).
Proof. intros Hown. apply (detect_loop_own _ _ Hown []). Qed.

Lemma issue_of_greater (crates : gmap string CrateInfo) (pkg : PackageRecord)
    (issue : Issue) :
  issue_of crates pkg = Some issue ->
  0 < compareVersions (currentVersion issue) (maxCompatible issue).
Proof.
  unfold issue_of. destruct (crates !! pkg_name pkg) as [c|]; [|discriminate].
  destruct (Z.ltb_spec 0 (compareVersions (pkg_version pkg) (crate_maxCompatible c)));
    [|discriminate].
  now intros [= <-].
Qed.

(** C1, at an input where the code departs from the claim.  The table
    has the key [blake3] only; the package list holds [blake3] at a
    version above its [maxCompatible] and then a package named
    [constructor].  The name [constructor] is not a key of the table,
    yet [crates[pkg.name]] reads the inherited [Object.prototype.constructor],
    which is truthy and has no [maxCompatible]: the comparator is
    called with [undefined] and raises, and the detector returns no
    issue at all, not even the one of [blake3]. *)
Theorem findProblematicDeps_inherited_name_raises :
  let crates : gmap string CrateInfo :=
    {[ "blake3" := {| crate_maxCompatible := "1.5.0";
                      crate_firstIncompatible := Some "1.6.0";
                      crate_reason := None; crate_usedBy := None;
                      crate_priority := None |} ]} in
  let blake3 := {| pkg_name := "blake3"; pkg_version := "1.8.3";
                   pkg_source := None |} in
  let constructor := {| pkg_name := "constructor"; pkg_version := "1.0.0";
                        pkg_source := None |} in
  crates !! "constructor" = None /\
  is_Some (issue_of crates blake3) /\
  findProblematicDeps crates [blake3; constructor] = Throw split_of_undefined /\
  findProblematicDeps crates [constructor] = Throw split_of_undefined /\
  findProblematicDeps ∅ [constructor] = Throw split_of_undefined.
Proof. vm_compute. repeat split; eauto. Qed.

Lemma reason_or_default_truthy (r : option string) :
  reason_or_default r <> EmptyString.
Proof.
  unfold reason_or_default. destruct r as [[|c s]|]; simpl; discriminate.
Qed.

(** C10. When the entry of a package lacks a reason or a usedBy field,
    the detector still emits the issue of the package, with the reason
    [Requires edition 2024] and with the empty usedBy list in their
    place; every issue of every output of the detector has a reason
    that is not the empty string. *)
Theorem findProblematicDeps_defaults (crates : gmap string CrateInfo)
    (packages : list PackageRecord) (issues : list Issue) :
  findProblematicDeps crates packages = Ok issues ->
  Forall (fun issue => reason issue <> EmptyString) issues /\
  (forall (pkg : PackageRecord) (crateInfo : CrateInfo),
     pkg ∈ packages ->
     crates !! pkg_name pkg = Some crateInfo ->
     0 < compareVersions (pkg_version pkg) (crate_maxCompatible crateInfo) ->
     exists issue : Issue,
       issue ∈ issues /\
       name issue = pkg_name pkg /\
       currentVersion issue = pkg_version pkg /\
       maxCompatible issue = crate_maxCompatible crateInfo /\
       firstIncompatible issue = crate_firstIncompatible crateInfo /\
       source issue = pkg_source pkg /\
       (crate_reason crateInfo = None -> reason issue = "Requires edition 2024") /\
       (forall r : string, crate_reason crateInfo = Some r -> r <> EmptyString ->
                           reason issue = r) /\
       (crate_usedBy crateInfo = None -> usedBy issue = []) /\
       (forall u : list string, crate_usedBy crateInfo = Some u ->
                                usedBy issue = u)).
Proof.
  intros Hok. apply detect_loop_ok in Hok. simpl in Hok. subst issues. split.
  - apply Forall_forall. intros issue Hin.
    apply list_elem_of_omap in Hin as (pkg & _ & Hissue).
    unfold issue_of in Hissue.
    destruct (crates !! pkg_name pkg) as [c|]; [|discriminate].
    destruct (0 <? _); [|discriminate].
    injection Hissue as <-. apply reason_or_default_truthy.
  - intros pkg c Hin Hc Hgt. exists (make_issue pkg c). split.
    + apply list_elem_of_omap. exists pkg. split; [assumption|].
      unfold issue_of. rewrite Hc.
      apply Z.ltb_lt in Hgt. now rewrite Hgt.
    + simpl. repeat split.
      * now intros ->.
      * intros r -> Hr. destruct r; [contradiction|reflexivity].
      * now intros ->.
      * now intros u ->.
Qed.

Lemma findProblematicDeps_defaults_witness :
  let bare := {| crate_maxCompatible := "1.5.0";
                 crate_firstIncompatible := Some "1.6.0";
                 crate_reason := None; crate_usedBy := None;
                 crate_priority := None |} in
  let crates : gmap string CrateInfo := {[ "blake3" := bare ]} in
  let blake3 := {| pkg_name := "blake3"; pkg_version := "1.8.3";
                   pkg_source := None |} in
  let issue := {| name := "blake3"; currentVersion := "1.8.3";
                  maxCompatible := "1.5.0"; firstIncompatible := Some "1.6.0";
                  reason := "Requires edition 2024"; usedBy := [];
                  source := None |} in
  findProblematicDeps crates [blake3] = Ok [issue] /\
  Forall (fun issue => reason issue <> EmptyString) [issue].
Proof.
  intros bare crates blake3 issue.
  assert (Hok : findProblematicDeps crates [blake3] = Ok [issue])
    by (vm_compute; reflexivity).
  split; [exact Hok|].
  exact (proj1 (findProblematicDeps_defaults crates [blake3] [issue] Hok)).
Defined.

(** ** Effectful code *)

Ltac unfold_calls :=
  unfold fs_existsSync, fs_readFileSync, fs_mkdirSync, fs_writeFileSync,
    child_spawnSync, resolve, lift_outcome, try_catch, bind, record, ret, throw;
  cbn [world trace fst snd].

Ltac run_calls :=
  cbv beta iota zeta delta
    [fs_existsSync fs_readFileSync fs_mkdirSync fs_writeFileSync
     child_spawnSync resolve lift_outcome try_catch bind record ret throw
     world trace fst snd negb].

(** Every element of the list in the goal is listed in the other. *)
Ltac calls_listed :=
  repeat (apply Forall_cons; split;
          [repeat first [apply list_elem_of_here | apply list_elem_of_further]|]);
  apply Forall_nil_2.

Section Effects.
Context {W : Type} `{Sys W}.

Lemma parseCargoLock_absent (lockPath : string) (s : St W) :
  existsSync lockPath (world s) = false ->
  parseCargoLock lockPath s =
  (Ok None, mkSt (world s) (trace s ++ [EvExists lockPath])).
Proof. intros Hex. unfold parseCargoLock. unfold_calls. now rewrite Hex. Qed.

Lemma parseCargoLock_present (lockPath content : string) (s : St W) :
  existsSync lockPath (world s) = true ->
  readFileSync lockPath (world s) = Ok content ->
  parseCargoLock lockPath s =
  (Ok (Some (parse_content content)),
   mkSt (world s) ((trace s ++ [EvExists lockPath]) ++ [EvRead lockPath])).
Proof.
  intros Hex Hread. unfold parseCargoLock. unfold_calls.
  rewrite Hex. cbn. now rewrite Hread.
Qed.

Lemma checkCargoToml_present (projectPath content : string) (s : St W) :
  existsSync (path_join [projectPath; "Cargo.toml"]) (world s) = true ->
  readFileSync (path_join [projectPath; "Cargo.toml"]) (world s) = Ok content ->
  checkCargoToml projectPath s =
  (Ok (TomlPresent
         (match search (match_key "rust-version") content with
          | Some _ => true | None => false end)
         (search (match_field "rust-version") content)
         (includes "[patch.crates-io]" content)
         (path_join [projectPath; "Cargo.toml"])),
   mkSt (world s)
     ((trace s ++ [EvExists (path_join [projectPath; "Cargo.toml"])])
      ++ [EvRead (path_join [projectPath; "Cargo.toml"])])).
Proof.
  intros Hex Hread. unfold checkCargoToml. unfold_calls.
  rewrite Hex. cbn. now rewrite Hread.
Qed.

End Effects.

(** C7. For every project path whose manifest is absent, [analyze]
    returns a result with [success = false] and an error string that
    is not empty; its only call to the environment is the existence
    test of the manifest, so the lockfile is neither tested nor read
    and no parsing takes place. *)
Theorem analyze_missing_manifest {W : Type} `{Sys W}
    (crates : gmap string CrateInfo) (projectPath : string) (s : St W) :
  existsSync (path_join [projectPath; "Cargo.toml"]) (world s) = false ->
  exists (r : AnalysisResult) (message : string),
    analyze crates projectPath s =
      (Ok r, mkSt (world s)
               (trace s ++ [EvExists (path_join [projectPath; "Cargo.toml"])])) /\
    success r = false /\
    error r = Some message /\
    message <> EmptyString /\
    cargoTomlInfo r = None /\
    List.filter is_read (trace (snd (analyze crates projectPath s))) =
    List.filter is_read (trace s).
Proof.
  intros Hex.
  exists (NoManifest ("No Cargo.toml found in " +:+ path_resolve projectPath (world s))).
  exists ("No Cargo.toml found in " +:+ path_resolve projectPath (world s)).
  assert (Hrun : analyze crates projectPath s =
    (Ok (NoManifest ("No Cargo.toml found in "
                     +:+ path_resolve projectPath (world s))),
     mkSt (world s)
       (trace s ++ [EvExists (path_join [projectPath; "Cargo.toml"])]))).
  { unfold analyze. unfold_calls. now rewrite Hex. }
  rewrite Hrun. repeat split.
  - discriminate.
  - cbn [snd trace]. rewrite List.filter_app. cbn. apply app_nil_r.
Qed.

Lemma analyze_missing_manifest_witness :
  let w := {| files := {[ "other/Cargo.toml" := "[package]";
                          "app/Cargo.lock" := "[[package]]" ]};
              dirs := ["app"; "other"]; read_only := false; script := [] |} in
  existsSync (path_join ["app"; "Cargo.toml"]) w = false /\
  exists (r : AnalysisResult) (message : string),
    run (analyze ∅ "app") w = (Ok r, mkSt w [EvExists "app/Cargo.toml"]) /\
    success r = false /\
    error r = Some message /\
    message <> EmptyString /\
    cargoTomlInfo r = None /\
    List.filter is_read (trace (snd (run (analyze ∅ "app") w))) = [].
Proof.
  intros w.
  assert (Hex : existsSync (path_join ["app"; "Cargo.toml"])
                  (world (mkSt w [])) = false) by (vm_compute; reflexivity).
  split; [exact Hex|].
  exact (analyze_missing_manifest ∅ "app" (mkSt w []) Hex).
Defined.

(** C8. The parser tells a missing lockfile from an empty one: it
    returns the sentinel [null] (here [None]) when the file does not
    exist, and the empty sequence when the file exists and is empty.
    When the manifest is present (it exists and can be read) and the
    lockfile is absent, [analyze] raises nothing and returns a failure
    result that carries the manifest metadata gathered by
    [checkCargoToml]; with an empty lockfile in place it succeeds with
    zero packages. *)
Theorem missing_lockfile_is_not_empty_lockfile {W : Type} `{Sys W}
    (crates : gmap string CrateInfo) (projectPath manifest : string) (s : St W) :
  let cargoTomlPath := path_join [projectPath; "Cargo.toml"] in
  let cargoLockPath := path_join [projectPath; "Cargo.lock"] in
  existsSync cargoTomlPath (world s) = true ->
  readFileSync cargoTomlPath (world s) = Ok manifest ->
  (forall (lockPath : string) (s0 : St W),
     existsSync lockPath (world s0) = false ->
     fst (parseCargoLock lockPath s0) = Ok None) /\
  (forall (lockPath : string) (s0 : St W),
     existsSync lockPath (world s0) = true ->
     readFileSync lockPath (world s0) = Ok EmptyString ->
     fst (parseCargoLock lockPath s0) = Ok (Some [])) /\
  (existsSync cargoLockPath (world s) = false ->
   exists (info : CargoTomlInfo) (message : string),
     fst (analyze crates projectPath s) = Ok (NoLockfile message info) /\
     fst (checkCargoToml projectPath s) = Ok info /\
     info <> TomlAbsent /\
     success (NoLockfile message info) = false /\
     error (NoLockfile message info) = Some message /\
     message <> EmptyString /\
     cargoTomlInfo (NoLockfile message info) = Some info) /\
  (existsSync cargoLockPath (world s) = true ->
   readFileSync cargoLockPath (world s) = Ok EmptyString ->
   exists r : AnalysisResult,
     fst (analyze crates projectPath s) = Ok r /\
     success r = true /\
     r = Analysis (path_resolve projectPath (world s)) 0 []
           (TomlPresent
              (match search (match_key "rust-version") manifest with
               | Some _ => true | None => false end)
              (search (match_field "rust-version") manifest)
              (includes "[patch.crates-io]" manifest)
              cargoTomlPath)
           [] "[patch.crates-io]").
Proof.
  intros cargoTomlPath cargoLockPath Hex Hread.
  split; [|split; [|split]].
  - intros lockPath s0 Hno. now rewrite parseCargoLock_absent.
  - intros lockPath s0 Hyes Hempty.
    now rewrite (parseCargoLock_present lockPath EmptyString).
  - intros Hno.
    eexists. eexists.
    rewrite (checkCargoToml_present projectPath manifest s Hex Hread).
    unfold analyze. unfold bind at 1. unfold fs_existsSync at 1. unfold_calls.
    fold cargoTomlPath. rewrite Hex. cbn [negb].
    match goal with |- context [checkCargoToml projectPath ?s1] =>
      rewrite (checkCargoToml_present projectPath manifest s1 Hex Hread) end.
    match goal with |- context [parseCargoLock _ ?s2] =>
      rewrite (parseCargoLock_absent (path_join [projectPath; "Cargo.lock"]) s2 Hno)
    end.
    cbn. repeat split; discriminate.
  - intros Hyes Hempty.
    eexists.
    unfold analyze. unfold bind at 1. unfold fs_existsSync at 1. unfold_calls.
    fold cargoTomlPath. rewrite Hex. cbn [negb].
    match goal with |- context [checkCargoToml projectPath ?s1] =>
      rewrite (checkCargoToml_present projectPath manifest s1 Hex Hread) end.
    match goal with |- context [parseCargoLock _ ?s2] =>
      rewrite (parseCargoLock_present (path_join [projectPath; "Cargo.lock"])
                 EmptyString s2 Hyes Hempty)
    end.
    cbn. repeat split.
Qed.

Lemma missing_lockfile_is_not_empty_lockfile_witness :
  let manifest := "[package]" +:+ nl +:+ "rust-version = " +:+ dq +:+ "1.75" +:+ dq in
  let w := {| files := {[ "app/Cargo.toml" := manifest ]};
              dirs := ["app"]; read_only := false; script := [] |} in
  existsSync (path_join ["app"; "Cargo.toml"]) w = true /\
  readFileSync (path_join ["app"; "Cargo.toml"]) w = Ok manifest /\
  existsSync (path_join ["app"; "Cargo.lock"]) w = false /\
  exists (info : CargoTomlInfo) (message : string),
    fst (run (analyze ∅ "app") w) = Ok (NoLockfile message info) /\
    fst (run (checkCargoToml "app") w) = Ok info /\
    info <> TomlAbsent /\
    success (NoLockfile message info) = false /\
    error (NoLockfile message info) = Some message /\
    message <> EmptyString /\
    cargoTomlInfo (NoLockfile message info) = Some info.
Proof.
  intros manifest w.
  assert (Hex : existsSync (path_join ["app"; "Cargo.toml"])
                  (world (mkSt w [])) = true) by (vm_compute; reflexivity).
  assert (Hread : readFileSync (path_join ["app"; "Cargo.toml"])
                    (world (mkSt w [])) = Ok manifest) by (vm_compute; reflexivity).
  assert (Hno : existsSync (path_join ["app"; "Cargo.lock"])
                  (world (mkSt w [])) = false) by (vm_compute; reflexivity).
  split; [exact Hex|split; [exact Hread|split; [exact Hno|]]].
  exact (proj1 (proj2 (proj2
           (missing_lockfile_is_not_empty_lockfile ∅ "app" manifest (mkSt w [])
              Hex Hread))) Hno).
Defined.

(** The manifest must be readable for the failure to be a soft one: when
    it exists and [readFileSync] raises on it (a directory, a file
    without read permission), [checkCargoToml] lets the exception
    through and [analyze] raises it, whatever the lockfile is. *)
Lemma analyze_unreadable_manifest {W : Type} `{Sys W}
    (crates : gmap string CrateInfo) (projectPath message : string) (s : St W) :
  existsSync (path_join [projectPath; "Cargo.toml"]) (world s) = true ->
  readFileSync (path_join [projectPath; "Cargo.toml"]) (world s) = Throw message ->
  fst (analyze crates projectPath s) = Throw message.
Proof.
  intros Hex Hread. destruct s as [w t]. cbn [world] in Hex, Hread.
  unfold analyze, checkCargoToml. run_calls. rewrite Hex. run_calls.
  rewrite Hex. run_calls. rewrite Hread. reflexivity.
Qed.

Example parse_content_example :
  parse_content
    (join nl [ "version = 4"; EmptyString;
               "[[package]]";
               "name = " +:+ dq +:+ "blake3" +:+ dq;
               "version = " +:+ dq +:+ "1.8.3" +:+ dq;
               EmptyString;
               "[[package]]";
               "name = " +:+ dq +:+ "nameless" +:+ dq;
               EmptyString;
               "[[package]]";
               "name = " +:+ dq +:+ "serde" +:+ dq;
               "version = " +:+ dq +:+ "1.0.0" +:+ dq;
               "source = " +:+ dq +:+ "registry" +:+ dq;
               EmptyString ])
  = [ {| pkg_name := "blake3"; pkg_version := "1.8.3"; pkg_source := None |};
      {| pkg_name := "serde"; pkg_version := "1.0.0";
         pkg_source := Some "registry" |} ].
Proof. vm_compute. reflexivity. Qed.

(** ** Fix executor *)

Lemma classified_push_updated (r : FixResults) (n : string) :
  classified (push_updated r n) ≡ₚ classified r ++ [n].
Proof.
  unfold classified. simpl. rewrite <- !app_assoc.
  apply Permutation_app_head. simpl. rewrite (app_assoc (skipped r)).
  apply Permutation_cons_append.
Qed.

Lemma classified_push_skipped (r : FixResults) (n : string) :
  classified (push_skipped r n) ≡ₚ classified r ++ [n].
Proof.
  unfold classified. simpl. rewrite <- !app_assoc.
  do 2 apply Permutation_app_head. simpl.
  apply Permutation_cons_append.
Qed.

Lemma classified_push_failed (r : FixResults) (n e : string) :
  classified (push_failed r {| fail_name := n; fail_error := e |})
  ≡ₚ classified r ++ [n].
Proof.
  unfold classified. simpl. rewrite map_app, <- !app_assoc. reflexivity.
Qed.

Section Executor.
Context {W : Type} `{Sys W}.


Lemma config_calls_not_spawn (projectPath : string) (calls : list Event) :
  Forall (fun e => e ∈ config_calls projectPath) calls ->
  List.filter is_spawn calls = [].
Proof.
  induction 1 as [|e l He _ IH]; [reflexivity|].
  simpl. unfold config_calls in He.
  rewrite !elem_of_cons in He. rewrite elem_of_nil in He.
  destruct He as [->|[->|[->|[->|[]]]]]; exact IH.
Qed.

(** Step 1 raises nothing, touches none of the three lists, and makes
    only calls of [config_calls], in their order. *)
Lemma config_step_spec (projectPath : string) (r : FixResults) (s : St W) :
  let cargoConfigPath := path_join [projectPath; ".cargo"; "config.toml"] in
  let cargoDir := path_join [projectPath; ".cargo"] in
  exists (r' : FixResults) (s' : St W) (calls : list Event),
    config_step projectPath r s = (Ok r', s') /\
    trace s' = trace s ++ calls /\
    Forall (fun e => e ∈ config_calls projectPath) calls /\
    updated r' = updated r /\ failed r' = failed r /\ skipped r' = skipped r /\
    (existsSync cargoConfigPath (world s) = true ->
     calls = [EvExists cargoConfigPath] /\ r' = r /\ world s' = world s) /\
    (existsSync cargoConfigPath (world s) = false ->
     existsSync cargoDir (world s) = true ->
     fst (writeFileSync cargoConfigPath generateCargoConfig (world s)) = Ok tt ->
     calls = [EvExists cargoConfigPath; EvExists cargoDir;
              EvWrite cargoConfigPath generateCargoConfig] /\
     configCreated r' = true) /\
    (forall w1 : W,
     existsSync cargoConfigPath (world s) = false ->
     existsSync cargoDir (world s) = false ->
     mkdirSync cargoDir (world s) = (Ok tt, w1) ->
     fst (writeFileSync cargoConfigPath generateCargoConfig w1) = Ok tt ->
     calls = config_calls projectPath /\ configCreated r' = true).
Proof.
  intros cargoConfigPath cargoDir.
  unfold config_calls. fold cargoConfigPath cargoDir.
  unfold config_step. fold cargoConfigPath cargoDir.
  generalize generateCargoConfig. intros content.
  destruct s as [w t]. run_calls.
  destruct (existsSync cargoConfigPath w) eqn:Ecfg.
  { exists r, (mkSt w (t ++ [EvExists cargoConfigPath])),
      [EvExists cargoConfigPath].
    repeat split; try discriminate. calls_listed. }
  destruct (existsSync cargoDir w) eqn:Edir.
  - destruct (writeFileSync cargoConfigPath content w)
      as [[[]|msg] w2] eqn:Ewrite;
      eexists _, _, [EvExists cargoConfigPath; EvExists cargoDir;
                     EvWrite cargoConfigPath content];
      rewrite <- !app_assoc; repeat split; try discriminate; calls_listed.
  - destruct (mkdirSync cargoDir w) as [[[]|msg] w1] eqn:Emk.
    + destruct (writeFileSync cargoConfigPath content w1)
        as [[[]|msg] w2] eqn:Ewrite;
        eexists _, _, [EvExists cargoConfigPath; EvExists cargoDir;
                       EvMkdir cargoDir; EvWrite cargoConfigPath content];
        rewrite <- !app_assoc; repeat split; try discriminate;
        try calls_listed;
        match goal with
        | Hmk : (Ok tt, w1) = (Ok tt, _) |- _ => injection Hmk as <-
        end;
        match goal with
        | Hw : _ = Ok tt |- _ => rewrite Ewrite in Hw; discriminate Hw
        end.
    + eexists _, _, [EvExists cargoConfigPath; EvExists cargoDir; EvMkdir cargoDir].
      rewrite <- !app_assoc. repeat split; try discriminate. calls_listed.
Qed.

(** The body of the loop raises nothing, starts exactly one subprocess
    and adds the name of its issue to exactly one of the three lists. *)
Lemma fix_issue_spec (projectPath : string) (options : Options)
    (issue : Issue) (r : FixResults) (s : St W) :
  exists (r' : FixResults) (s' : St W),
    fix_issue projectPath options issue r s = (Ok r', s') /\
    trace s' = trace s ++ [spawn_event projectPath options issue] /\
    classified r' ≡ₚ classified r ++ [name issue] /\
    configCreated r' = configCreated r.
Proof.
  unfold fix_issue, spawn_event, update_args. destruct s as [w t]. run_calls.
  destruct (spawnSync "cargo"
              ["update"; "-p"; name issue; "--precise"; maxCompatible issue]
              projectPath (if verbose options then Inherit else Pipe) w)
    as [[result|message] w1].
  - destruct (status_is_zero result); [|destruct (stderr_not_found result)];
      eexists _, _; (split; [reflexivity|]); (split; [reflexivity|]);
      (split; [|reflexivity]).
    + apply classified_push_updated.
    + apply classified_push_skipped.
    + apply classified_push_failed.
  - eexists _, _. split; [reflexivity|]. split; [reflexivity|].
    split; [|reflexivity]. apply classified_push_failed.
Qed.

Lemma fix_loop_spec (projectPath : string) (options : Options)
    (issues : list Issue) : forall (r : FixResults) (s : St W),
  exists (r' : FixResults) (s' : St W),
    fix_loop projectPath options issues r s = (Ok r', s') /\
    trace s' = trace s ++ map (spawn_event projectPath options) issues /\
    classified r' ≡ₚ classified r ++ map name issues /\
    configCreated r' = configCreated r.
Proof.
  induction issues as [|issue rest IH]; intros r s.
  - exists r, s. cbn. rewrite !app_nil_r. repeat split. reflexivity.
  - destruct (fix_issue_spec projectPath options issue r s)
      as (r1 & s1 & Hrun1 & Htrace1 & Hclass1 & Hcfg1).
    destruct (IH r1 s1) as (r2 & s2 & Hrun2 & Htrace2 & Hclass2 & Hcfg2).
    exists r2, s2. cbn [fix_loop]. unfold bind. rewrite Hrun1, Hrun2.
    split; [reflexivity|]. split; [|split].
    + rewrite Htrace2, Htrace1, <- app_assoc. reflexivity.
    + rewrite Hclass2, Hclass1, <- app_assoc. reflexivity.
    + congruence.
Qed.

End Executor.

Lemma filter_spawn_events (projectPath : string) (options : Options)
    (issues : list Issue) :
  List.filter is_spawn (map (spawn_event projectPath options) issues) =
  map (spawn_event projectPath options) issues.
Proof. induction issues as [|i r IH]; simpl; [reflexivity|now rewrite IH]. Qed.

Lemma classified_length (r : FixResults) :
  length (classified r) =
  (length (updated r) + length (skipped r) + length (failed r))%nat.
Proof. unfold classified. rewrite !length_app, length_map. lia. Qed.

(** C9. With an empty issue list [applyFixes] is its configuration
    step alone: it tests whether [.cargo/config.toml] exists and, when
    it does not, creates the directory if needed and writes the file;
    it starts no subprocess and its three lists are empty.  With any
    issue list [applyFixes] raises nothing; after the calls of the
    configuration step it starts exactly one subprocess per issue, in
    the order of the list, whatever the earlier subprocesses did; and
    the name of every issue is in exactly one of [updated], [skipped]
    and [failed]. *)
Theorem applyFixes_attempts_every_issue {W : Type} `{Sys W}
    (projectPath : string) (issues : list Issue) (options : Options) (s : St W) :
  let cargoConfigPath := path_join [projectPath; ".cargo"; "config.toml"] in
  let cargoDir := path_join [projectPath; ".cargo"] in
  (exists (r0 : FixResults) (s0 : St W) (calls0 : list Event),
     applyFixes projectPath [] options s = (Ok r0, s0) /\
     applyFixes projectPath [] options s =
       config_step projectPath initial_results s /\
     trace s0 = trace s ++ calls0 /\
     Forall (fun e => e ∈ config_calls projectPath) calls0 /\
     List.filter is_spawn (trace s0) = List.filter is_spawn (trace s) /\
     updated r0 = [] /\ skipped r0 = [] /\ failed r0 = [] /\
     (existsSync cargoConfigPath (world s) = true ->
      calls0 = [EvExists cargoConfigPath] /\
      configCreated r0 = false /\ world s0 = world s) /\
     (existsSync cargoConfigPath (world s) = false ->
      existsSync cargoDir (world s) = true ->
      fst (writeFileSync cargoConfigPath generateCargoConfig (world s)) = Ok tt ->
      calls0 = [EvExists cargoConfigPath; EvExists cargoDir;
                EvWrite cargoConfigPath generateCargoConfig] /\
      configCreated r0 = true) /\
     (forall w1 : W,
      existsSync cargoConfigPath (world s) = false ->
      existsSync cargoDir (world s) = false ->
      mkdirSync cargoDir (world s) = (Ok tt, w1) ->
      fst (writeFileSync cargoConfigPath generateCargoConfig w1) = Ok tt ->
      calls0 = config_calls projectPath /\ configCreated r0 = true)) /\
  (exists (r : FixResults) (s' : St W) (calls : list Event),
     applyFixes projectPath issues options s = (Ok r, s') /\
     trace s' = trace s ++ calls ++ map (spawn_event projectPath options) issues /\
     Forall (fun e => e ∈ config_calls projectPath) calls /\
     List.filter is_spawn (trace s') =
       List.filter is_spawn (trace s) ++ map (spawn_event projectPath options) issues /\
     classified r ≡ₚ map name issues /\
     (length (updated r) + length (skipped r) + length (failed r))%nat
       = length issues).
Proof.
  intros cargoConfigPath cargoDir.
  destruct (config_step_spec projectPath initial_results s)
    as (r1 & s1 & calls & Hcfg & Htrace1 & Hcalls & Hu & Hf & Hs
        & Hpresent & Hdir & Hmk).
  simpl in Hu, Hf, Hs.
  assert (Hempty : applyFixes projectPath [] options s = (Ok r1, s1)).
  { unfold applyFixes, bind. rewrite Hcfg. reflexivity. }
  split.
  - exists r1, s1, calls. rewrite Hempty.
    split; [reflexivity|]. split; [now rewrite Hcfg|].
    split; [exact Htrace1|]. split; [exact Hcalls|].
    split.
    { rewrite Htrace1, List.filter_app,
        (config_calls_not_spawn projectPath calls Hcalls).
      apply app_nil_r. }
    split; [exact Hu|]. split; [exact Hs|]. split; [exact Hf|].
    split; [|split; [exact Hdir|exact Hmk]].
    intros Hyes. destruct (Hpresent Hyes) as (Hc & -> & Hw).
    repeat split; assumption.
  - destruct (fix_loop_spec projectPath options issues r1 s1)
      as (r2 & s2 & Hloop & Htrace2 & Hclass & _).
    assert (Hclassified : classified r2 ≡ₚ map name issues).
    { rewrite Hclass. unfold classified. rewrite Hu, Hf, Hs. reflexivity. }
    exists r2, s2, calls.
    split.
    { unfold applyFixes, bind. rewrite Hcfg. exact Hloop. }
    split; [rewrite Htrace2, Htrace1, <- app_assoc; reflexivity|].
    split; [exact Hcalls|].
    split.
    { rewrite Htrace2, Htrace1, !List.filter_app,
        (config_calls_not_spawn projectPath calls Hcalls), app_nil_r.
      now rewrite filter_spawn_events. }
    split; [exact Hclassified|].
    rewrite <- classified_length.
    rewrite (Permutation_length Hclassified). apply length_map.
Qed.

Lemma applyFixes_attempts_every_issue_witness :
  let w := {| files := {[ "app/Cargo.toml" := "[package]" ]};
              dirs := ["app"]; read_only := false; script := [] |} in
  let options := {| quiet := true; verbose := false |} in
  existsSync (path_join ["app"; ".cargo"; "config.toml"]) w = false /\
  existsSync (path_join ["app"; ".cargo"]) w = false /\
  exists (r0 : FixResults) (s0 : St MemWorld) (calls0 : list Event),
    run (applyFixes "app" [] options) w = (Ok r0, s0) /\
    trace s0 = calls0 /\
    calls0 = [ EvExists "app/.cargo/config.toml"; EvExists "app/.cargo";
               EvMkdir "app/.cargo";
               EvWrite "app/.cargo/config.toml" generateCargoConfig ] /\
    configCreated r0 = true /\
    updated r0 = [] /\ skipped r0 = [] /\ failed r0 = [].
Proof.
  intros w options.
  assert (Hcfg : existsSync (path_join ["app"; ".cargo"; "config.toml"])
                   (world (mkSt w [])) = false) by (vm_compute; reflexivity).
  assert (Hdir : existsSync (path_join ["app"; ".cargo"])
                   (world (mkSt w [])) = false) by (vm_compute; reflexivity).
  split; [exact Hcfg|split; [exact Hdir|]].
  destruct (proj1 (applyFixes_attempts_every_issue "app" [] options (mkSt w [])))
    as (r0 & s0 & calls0 & Hrun & _ & Htrace & _ & _ & Hu & Hs & Hf & _ & _ & Hmk).
  destruct (Hmk _ Hcfg Hdir eq_refl eq_refl) as [Hcalls Hcreated].
  exists r0, s0, calls0.
  split; [exact Hrun|]. split; [exact Htrace|]. split; [exact Hcalls|].
  split; [exact Hcreated|]. split; [exact Hu|]. split; [exact Hs|exact Hf].
Defined.

(** A run of the executor in which the first subprocess raises, the
    second reports a package that is not in the tree, the third fails
    and the fourth succeeds, on a file system that refuses writes. *)
Example applyFixes_example :
  let issue n m := {| name := n; currentVersion := "9.9.9"; maxCompatible := m;
                      firstIncompatible := None; reason := "r"; usedBy := [];
                      source := None |} in
  let w := {| files := ∅; dirs := ["app"]; read_only := true;
              script := [ Throw "The argument 'args[2]' must be a string without null bytes";
                          Ok {| status := Some 101;
                                stderr := Some "error: package ID specification `b` not found" |};
                          Ok {| status := Some 101; stderr := Some EmptyString |};
                          Ok {| status := Some 0; stderr := Some EmptyString |} ] |} in
  let out := run (applyFixes "app" [issue "a" "1.0.0"; issue "b" "2.0.0";
                                    issue "c" "3.0.0"; issue "d" "4.0.0"]
                    {| quiet := true; verbose := false |}) w in
  fst out = Ok {| updated := ["d"];
                  failed := [ {| fail_name := "a";
                                 fail_error :=
                                   "The argument 'args[2]' must be a string without null bytes" |};
                              {| fail_name := "c"; fail_error := "Unknown error" |} ];
                  skipped := ["b"];
                  configCreated := false; cargoTomlUpdated := false |} /\
  List.filter is_spawn (trace (snd out)) =
    [ EvSpawn "cargo" ["update"; "-p"; "a"; "--precise"; "1.0.0"] "app" Pipe;
      EvSpawn "cargo" ["update"; "-p"; "b"; "--precise"; "2.0.0"] "app" Pipe;
      EvSpawn "cargo" ["update"; "-p"; "c"; "--precise"; "3.0.0"] "app" Pipe;
      EvSpawn "cargo" ["update"; "-p"; "d"; "--precise"; "4.0.0"] "app" Pipe ].
Proof. vm_compute. split; reflexivity. Qed.

(** ** The pipeline on an example *)

(** A project whose lockfile holds [blake3] above its [maxCompatible],
    [subtle] at its [maxCompatible] and [serde], which the table does
    not know: one issue, for [blake3]. *)
Example analyze_example :
  let entry m := {| crate_maxCompatible := m; crate_firstIncompatible := None;
                    crate_reason := None; crate_usedBy := None;
                    crate_priority := None |} in
  let crates : gmap string CrateInfo :=
    {[ "blake3" := entry "1.5.0"; "subtle" := entry "2.5.0" ]} in
  let lock :=
    join nl [ "[[package]]";
              "name = " +:+ dq +:+ "blake3" +:+ dq;
              "version = " +:+ dq +:+ "1.8.3" +:+ dq;
              EmptyString;
              "[[package]]";
              "name = " +:+ dq +:+ "serde" +:+ dq;
              "version = " +:+ dq +:+ "1.0.0" +:+ dq;
              EmptyString;
              "[[package]]";
              "name = " +:+ dq +:+ "subtle" +:+ dq;
              "version = " +:+ dq +:+ "2.5.0" +:+ dq;
              EmptyString ] in
  let w := {| files := {[ "app/Cargo.toml" := "[package]";
                          "app/Cargo.lock" := lock ]};
              dirs := ["app"]; read_only := false; script := [] |} in
  fst (run (analyze crates "app") w) =
  Ok (Analysis "/work/app" 3
        [ {| name := "blake3"; currentVersion := "1.8.3";
             maxCompatible := "1.5.0"; firstIncompatible := None;
             reason := "Requires edition 2024"; usedBy := []; source := None |} ]
        (TomlPresent false None false "app/Cargo.toml")
        ["cargo update -p blake3 --precise 1.5.0"]
        ("[patch.crates-io]" +:+ nl +:+ "blake3 = " +:+ dq +:+ "=1.5.0" +:+ dq)).
Proof. vm_compute. reflexivity. Qed.

(* ================================================================= *)
(** * Further properties *)

(** ** The comparator as an order *)

Lemma index_or_not_NaN (p : list Number) (i : nat) :
  index_or p i (Fin 0) <> NaN.
Proof.
  unfold index_or, num_or. destruct (p !! i) as [x|]; [|discriminate].
  destruct x as [|z|b]; simpl; try discriminate.
  destruct (z =? 0); discriminate.
Qed.

Lemma index_or_beyond (p : list Number) (i : nat) :
  (length p <= i)%nat -> index_or p i (Fin 0) = Fin 0.
Proof.
  intros Hlen. unfold index_or. now rewrite (lookup_ge_None_2 p i Hlen).
Qed.

Lemma num_lt_trans (a b c : Number) :
  num_lt a b = true -> num_lt b c = true -> num_lt a c = true.
Proof.
  destruct a as [|x|[]], b as [|y|[]], c as [|z|[]]; simpl; try congruence.
  rewrite !Z.ltb_lt. lia.
Qed.

Lemma num_lt_total (a b : Number) :
  a <> NaN -> b <> NaN -> num_lt a b = false -> num_lt b a = false -> a = b.
Proof.
  destruct a as [|x|[]], b as [|y|[]]; simpl; try congruence.
  rewrite !Z.ltb_ge. intros _ _ H1 H2. f_equal. lia.
Qed.

(** The loop returns 1 exactly when, at the first index where the two
    versions differ, the first one is greater. *)
Lemma compare_loop_one (p1 p2 : list Number) (n : nat) : forall i : nat,
  compare_loop p1 p2 n i = 1 <->
  exists k : nat,
    (i <= k < i + n)%nat /\
    (forall j : nat, (i <= j < k)%nat ->
                     index_or p1 j (Fin 0) = index_or p2 j (Fin 0)) /\
    num_lt (index_or p2 k (Fin 0)) (index_or p1 k (Fin 0)) = true.
Proof.
  induction n as [|n IH]; intros i; cbn [compare_loop].
  - split; [discriminate|]. intros (k & Hk & _). lia.
  - unfold num_gt.
    destruct (num_lt (index_or p2 i (Fin 0)) (index_or p1 i (Fin 0))) eqn:Egt.
    + split; [|reflexivity]. intros _. exists i.
      split; [lia|]. split; [intros j Hj; lia|exact Egt].
    + destruct (num_lt (index_or p1 i (Fin 0)) (index_or p2 i (Fin 0))) eqn:Elt.
      * split; [discriminate|]. intros (k & Hk & Hpre & Hgt).
        destruct (Nat.eq_dec k i) as [->|Hne]; [congruence|].
        rewrite (Hpre i) in Elt by lia. now rewrite num_lt_irrefl in Elt.
      * assert (Heq : index_or p1 i (Fin 0) = index_or p2 i (Fin 0))
          by (apply num_lt_total; auto using index_or_not_NaN).
        rewrite IH. split; intros (k & Hk & Hpre & Hgt).
        -- exists k. split; [lia|]. split; [|exact Hgt].
           intros j Hj. destruct (Nat.eq_dec j i) as [->|Hne]; [exact Heq|].
           apply Hpre. lia.
        -- destruct (Nat.eq_dec k i) as [->|Hne]; [congruence|].
           exists k. split; [lia|]. split; [|exact Hgt].
           intros j Hj. apply Hpre. lia.
Qed.

Lemma compare_loop_minus_one (p1 p2 : list Number) (n i : nat) :
  compare_loop p1 p2 n i = -1 <-> compare_loop p2 p1 n i = 1.
Proof.
  pose proof (compare_loop_antisym p2 p1 n i) as Ha.
  destruct (compare_loop_range p1 p2 n i) as [E|[E|E]],
           (compare_loop_range p2 p1 n i) as [E'|[E'|E']];
    rewrite E, E' in *; split; intros; try reflexivity; try discriminate; lia.
Qed.

(** Iterations past the end of both versions compare zero with zero. *)
Lemma compare_loop_tail (p1 p2 : list Number) (m : nat) : forall i : nat,
  (length p1 <= i)%nat -> (length p2 <= i)%nat -> compare_loop p1 p2 m i = 0.
Proof.
  induction m as [|m IH]; intros i H1 H2; cbn [compare_loop]; [reflexivity|].
  unfold num_gt. rewrite !index_or_beyond by assumption.
  cbn. apply IH; lia.
Qed.

Lemma compare_loop_extra (p1 p2 : list Number) (n m : nat) : forall i : nat,
  (length p1 <= i + n)%nat -> (length p2 <= i + n)%nat ->
  compare_loop p1 p2 (n + m) i = compare_loop p1 p2 n i.
Proof.
  induction n as [|n IH]; intros i H1 H2.
  - cbn [Nat.add compare_loop]. apply compare_loop_tail; lia.
  - cbn [Nat.add compare_loop].
    destruct (num_gt _ _); [reflexivity|]. destruct (num_lt _ _); [reflexivity|].
    apply IH; lia.
Qed.

(** The loop with any bound that covers both versions. *)
Lemma compare_loop_bound (p1 p2 : list Number) (N : nat) :
  (length p1 <= N)%nat -> (length p2 <= N)%nat ->
  compare_loop p1 p2 (Nat.max (length p1) (length p2)) 0 = compare_loop p1 p2 N 0.
Proof.
  intros H1 H2.
  rewrite <- (compare_loop_extra p1 p2 (Nat.max (length p1) (length p2))
                (N - Nat.max (length p1) (length p2)) 0) by lia.
  f_equal. lia.
Qed.

(** The loop reads its arguments through [index_or] only. *)
Lemma compare_loop_ext (p1 p2 q1 q2 : list Number) (n : nat) : forall i : nat,
  (forall k : nat, index_or p1 k (Fin 0) = index_or q1 k (Fin 0)) ->
  (forall k : nat, index_or p2 k (Fin 0) = index_or q2 k (Fin 0)) ->
  compare_loop p1 p2 n i = compare_loop q1 q2 n i.
Proof.
  induction n as [|n IH]; intros i H1 H2; cbn [compare_loop]; [reflexivity|].
  rewrite H1, H2, (IH (S i) H1 H2). reflexivity.
Qed.

Lemma compare_loop_trans (p1 p2 p3 : list Number) (N : nat) :
  compare_loop p1 p2 N 0 = 1 -> compare_loop p2 p3 N 0 = 1 ->
  compare_loop p1 p3 N 0 = 1.
Proof.
  rewrite !compare_loop_one.
  intros (k1 & Hk1 & Hpre1 & Hgt1) (k2 & Hk2 & Hpre2 & Hgt2).
  destruct (lt_eq_lt_dec k1 k2) as [[Hlt|Heq]|Hlt]; [|subst k1|].
  - exists k1. split; [lia|]. split.
    + intros j Hj. rewrite Hpre1 by lia. apply Hpre2. lia.
    + rewrite <- Hpre2 by lia. exact Hgt1.
  - exists k2. split; [lia|]. split.
    + intros j Hj. rewrite Hpre1 by lia. apply Hpre2. lia.
    + eapply num_lt_trans; eassumption.
  - exists k2. split; [lia|]. split.
    + intros j Hj. rewrite Hpre1 by lia. apply Hpre2. lia.
    + rewrite Hpre1 by lia. exact Hgt2.
Qed.

Lemma compare_loop_zero (p1 p2 : list Number) (n : nat) : forall i : nat,
  compare_loop p1 p2 n i = 0 ->
  forall k : nat, (i <= k < i + n)%nat ->
                  index_or p1 k (Fin 0) = index_or p2 k (Fin 0).
Proof.
  induction n as [|n IH]; intros i Hz k Hk; [lia|].
  cbn [compare_loop] in Hz. unfold num_gt in Hz.
  destruct (num_lt (index_or p2 i (Fin 0)) (index_or p1 i (Fin 0))) eqn:Egt;
    [discriminate|].
  destruct (num_lt (index_or p1 i (Fin 0)) (index_or p2 i (Fin 0))) eqn:Elt;
    [discriminate|].
  destruct (Nat.eq_dec k i) as [->|Hne].
  - apply num_lt_total; auto using index_or_not_NaN.
  - apply (IH (S i) Hz). lia.
Qed.

(** Two versions that compare equal have the same components at every
    index. *)
Lemma compareVersions_zero_components (a b : string) :
  compareVersions a b = 0 ->
  forall k : nat, index_or (parts a) k (Fin 0) = index_or (parts b) k (Fin 0).
Proof.
  unfold compareVersions. intros Hz k.
  destruct (Nat.lt_ge_cases k (Nat.max (length (parts a)) (length (parts b))))
    as [Hlt|Hge].
  - apply (compare_loop_zero _ _ _ 0 Hz). lia.
  - rewrite !index_or_beyond by lia. reflexivity.
Qed.

(** X1. The comparator is a strict order on versions: if [a] is greater
    than [b] and [b] is greater than [c], then [a] is greater than [c];
    the same holds for smaller. *)
Theorem compareVersions_transitive (a b c : string) :
  (compareVersions a b = 1 -> compareVersions b c = 1 ->
   compareVersions a c = 1) /\
  (compareVersions a b = -1 -> compareVersions b c = -1 ->
   compareVersions a c = -1).
Proof.
  set (N := Nat.max (length (parts a))
              (Nat.max (length (parts b)) (length (parts c)))).
  assert (Hbound : forall x y : string,
            (length (parts x) <= N)%nat -> (length (parts y) <= N)%nat ->
            compareVersions x y = compare_loop (parts x) (parts y) N 0).
  { intros x y Hx Hy. unfold compareVersions. now apply compare_loop_bound. }
  rewrite (Hbound a b), (Hbound b c), (Hbound a c) by (unfold N; lia).
  split.
  - apply compare_loop_trans.
  - rewrite !compare_loop_minus_one. intros H1 H2.
    exact (compare_loop_trans _ _ _ N H2 H1).
Qed.

Lemma compareVersions_transitive_witness :
  compareVersions "2.0.0-rc1" "1.10" = 1 /\
  compareVersions "1.10" "1.9.7+build" = 1 /\
  compareVersions "2.0.0-rc1" "1.9.7+build" = 1.
Proof.
  assert (H1 : compareVersions "2.0.0-rc1" "1.10" = 1) by reflexivity.
  assert (H2 : compareVersions "1.10" "1.9.7+build" = 1) by reflexivity.
  split; [exact H1|split; [exact H2|]].
  exact (proj1 (compareVersions_transitive "2.0.0-rc1" "1.10" "1.9.7+build") H1 H2).
Defined.

(** X2. Versions that compare equal are interchangeable: when
    [compareVersions a b] is 0, [a] and [b] compare alike with every
    third version, on either side. *)
Theorem compareVersions_equal_congruence (a b c : string) :
  compareVersions a b = 0 ->
  compareVersions a c = compareVersions b c /\
  compareVersions c a = compareVersions c b.
Proof.
  intros Hz. pose proof (compareVersions_zero_components a b Hz) as Hab.
  set (N := Nat.max (length (parts a))
              (Nat.max (length (parts b)) (length (parts c)))).
  assert (Hbound : forall x y : string,
            (length (parts x) <= N)%nat -> (length (parts y) <= N)%nat ->
            compareVersions x y = compare_loop (parts x) (parts y) N 0).
  { intros x y Hx Hy. unfold compareVersions. now apply compare_loop_bound. }
  rewrite (Hbound a c), (Hbound b c), (Hbound c a), (Hbound c b)
    by (unfold N; lia).
  split; apply compare_loop_ext; auto.
Qed.

Lemma compareVersions_equal_congruence_witness :
  compareVersions "1.2" "1.2.0-beta" = 0 /\
  compareVersions "1.2" "1.10" = compareVersions "1.2.0-beta" "1.10".
Proof.
  assert (Hz : compareVersions "1.2" "1.2.0-beta" = 0) by reflexivity.
  split; [exact Hz|].
  exact (proj1 (compareVersions_equal_congruence "1.2" "1.2.0-beta" "1.10" Hz)).
Defined.

Lemma split_append_sep (c : ascii) (s t : string) :
  split c (s +:+ String c t) = split c s ++ split c t.
Proof.
  induction s as [|a r IH].
  - simpl. now rewrite Ascii.eqb_refl.
  - change (String a r +:+ String c t) with (String a (r +:+ String c t)).
    cbn [split]. rewrite IH. destruct (Ascii.eqb a c); [reflexivity|].
    pose proof (split_not_nil c r) as Hne.
    destruct (split c r); [contradiction|reflexivity].
Qed.

Lemma strip_suffix_append_any (a t : string) :
  strip_suffix (a +:+ t) =
  if sign_free a then a +:+ strip_suffix t else strip_suffix a.
Proof.
  induction a as [|c r IH]; [reflexivity|].
  change (String c r +:+ t) with (String c (r +:+ t)).
  cbn [strip_suffix sign_free].
  destruct (Ascii.eqb c "-" || Ascii.eqb c "+"); [reflexivity|].
  cbn [negb andb]. rewrite IH. destruct (sign_free r); reflexivity.
Qed.

Lemma strip_suffix_sign_free_id (a : string) :
  sign_free a = true -> strip_suffix a = a.
Proof.
  induction a as [|c r IH]; [reflexivity|]. cbn [strip_suffix sign_free].
  destruct (Ascii.eqb c "-" || Ascii.eqb c "+"); [discriminate|].
  cbn [negb andb]. intros Hr. now rewrite IH.
Qed.

Lemma parts_append_zero (a : string) :
  parts (a +:+ ".0") = if sign_free a then parts a ++ [Fin 0] else parts a.
Proof.
  unfold parts. rewrite !clean_strip_suffix, strip_suffix_append_any.
  destruct (sign_free a) eqn:Ha; [|reflexivity].
  rewrite (strip_suffix_sign_free_id a Ha).
  change (strip_suffix ".0") with (String "." "0").
  rewrite split_append_sep, map_app. reflexivity.
Qed.

Lemma index_or_append_zero (p : list Number) (k : nat) :
  index_or (p ++ [Fin 0]) k (Fin 0) = index_or p k (Fin 0).
Proof.
  unfold index_or.
  destruct (Nat.lt_ge_cases k (length p)) as [Hlt|Hge].
  - now rewrite lookup_app_l.
  - rewrite lookup_app_r, (lookup_ge_None_2 p k) by assumption.
    destruct (k - length p)%nat; reflexivity.
Qed.

(** X3. A trailing zero component changes no comparison: for all
    versions [a] and [b], [a.0] compares with [b] as [a] does, on
    either side (so 1.2 and 1.2.0 are the same version). *)
Theorem compareVersions_trailing_zero (a b : string) :
  compareVersions (a +:+ ".0") b = compareVersions a b /\
  compareVersions b (a +:+ ".0") = compareVersions b a.
Proof.
  unfold compareVersions. rewrite parts_append_zero.
  destruct (sign_free a); [|split; reflexivity].
  set (N := Nat.max (length (parts a ++ [Fin 0])) (length (parts b))).
  assert (Ha : (length (parts a) <= N)%nat)
    by (unfold N; rewrite length_app; simpl; lia).
  assert (Hb : (length (parts b) <= N)%nat) by (unfold N; lia).
  rewrite (compare_loop_bound (parts a) (parts b) N Ha Hb).
  rewrite (compare_loop_bound (parts b) (parts a) N Hb Ha).
  rewrite (Nat.max_comm (length (parts b))). fold N.
  split; apply compare_loop_ext; auto using index_or_append_zero.
Qed.

(** ** More on the lockfile parser *)

Lemma string_app_assoc (a b c : string) : (a +:+ b) +:+ c = a +:+ b +:+ c.
Proof.
  induction a as [|x a IH]; [reflexivity|].
  change (String x ((a +:+ b) +:+ c) = String x (a +:+ b +:+ c)).
  now rewrite IH.
Qed.

Lemma strip_prefix_app (p s r : string) :
  strip_prefix p s = Some r -> s = p +:+ r.
Proof.
  revert s. induction p as [|a p IH]; intros s; simpl.
  - now intros [= ->].
  - destruct s as [|b s]; [discriminate|].
    destruct (Ascii.eqb_spec a b) as [->|]; [|discriminate].
    intros Hs. now rewrite (IH _ Hs).
Qed.

Lemma skip_ws_suffix (s : string) : exists pre : string, s = pre +:+ skip_ws s.
Proof.
  induction s as [|a r [pre IH]]; [now exists EmptyString|].
  simpl. destruct (is_ws a).
  - exists (String a pre).
    change (String a pre +:+ skip_ws r) with (String a (pre +:+ skip_ws r)).
    now rewrite <- IH.
  - now exists EmptyString.
Qed.

Lemma span_unquoted_spec (s v rest : string) :
  span_unquoted s = (v, rest) -> s = v +:+ rest /\ includes dq v = false.
Proof.
  revert v rest. induction s as [|a r IH]; intros v rest; simpl.
  - intros [= <- <-]. split; reflexivity.
  - destruct (Ascii.eqb a dquote_char) eqn:Ea.
    + intros [= <- <-]. split; reflexivity.
    + destruct (span_unquoted r) as [v' rest'] eqn:Er.
      intros [= <- <-]. destruct (IH _ _ eq_refl) as [-> Hv].
      split; [reflexivity|]. unfold dq. rewrite includes_char_cons.
      rewrite Ascii.eqb_sym, Ea. exact Hv.
Qed.

(** What the pattern captures is a non-empty piece of the line, without
    a double quote. *)
Lemma match_field_piece (key line v : string) :
  match_field key line = Some v ->
  v <> EmptyString /\ includes dq v = false /\
  exists pre post : string, line = pre +:+ v +:+ post.
Proof.
  unfold match_field, match_key.
  destruct (strip_prefix key line) as [r1|] eqn:E1; [|discriminate].
  apply strip_prefix_app in E1.
  destruct (skip_ws_suffix r1) as [pre1 E2].
  destruct (skip_ws r1) as [|c r2]; [discriminate|].
  destruct (Ascii.eqb c "="); [|discriminate].
  destruct (skip_ws_suffix r2) as [pre2 E3].
  destruct (skip_ws r2) as [|c' r3]; [discriminate|].
  destruct (Ascii.eqb c' dquote_char); [|discriminate].
  destruct (span_unquoted r3) as [[|v0 v'] [|q rest]] eqn:E4; try discriminate.
  intros [= <-]. apply span_unquoted_spec in E4 as [E4 Hq].
  split; [discriminate|]. split; [exact Hq|].
  exists (key +:+ pre1 +:+ String c (pre2 +:+ String c' EmptyString)),
         (String q rest).
  rewrite E1, E2, E3, E4.
  repeat (rewrite string_app_assoc
          || change (String ?x ?y +:+ ?z) with (String x (y +:+ z))
          || change (EmptyString +:+ ?z) with z).
  reflexivity.
Qed.

Lemma split_pieces (c : ascii) (s : string) :
  Forall (fun x => includes (String c EmptyString) x = false) (split c s).
Proof.
  induction s as [|a r IH]; simpl.
  - repeat constructor.
  - destruct (Ascii.eqb a c) eqn:Ea.
    + constructor; [reflexivity|exact IH].
    + destruct (split c r) as [|h t]; [repeat constructor|].
      * rewrite includes_char_cons, Ascii.eqb_sym, Ea. reflexivity.
      * inversion IH; subst. constructor; [|assumption].
        rewrite includes_char_cons, Ascii.eqb_sym, Ea. assumption.
Qed.

Lemma segments_lines (lines : list string) :
  Forall (fun seg => forall l : string, l ∈ seg -> l ∈ lines) (segments lines).
Proof.
  induction lines as [|line rest IH]; simpl.
  - constructor; [|constructor]. intros l Hl. exact Hl.
  - destruct (String.eqb line delimiter).
    + constructor.
      * intros l Hl. inversion Hl.
      * eapply Forall_impl; [exact IH|].
        intros seg Hseg l Hl. apply list_elem_of_further. now apply Hseg.
    + destruct (segments rest) as [|seg segs].
      * constructor; [|constructor]. intros l Hl.
        apply list_elem_of_singleton in Hl as ->. apply list_elem_of_here.
      * inversion IH as [|? ? Hseg Hsegs]; subst. constructor.
        -- intros l Hl. apply elem_of_cons in Hl as [->|Hl];
             [apply list_elem_of_here|].
           apply list_elem_of_further. now apply Hseg.
        -- eapply Forall_impl; [exact Hsegs|].
           intros seg' Hseg' l Hl. apply list_elem_of_further. now apply Hseg'.
Qed.

Lemma field_of_valid (key : string) (block : list string) (v : string) :
  Forall single_line block -> field_of key block = Some v -> valid_field v.
Proof.
  intros Hblock Hf. unfold field_of in Hf. apply last_Some_elem_of in Hf.
  apply list_elem_of_omap in Hf as (line & Hline & Hm).
  apply match_field_piece in Hm as (Hne & Hq & pre & post & ->).
  split; [exact Hne|]. split; [exact Hq|].
  rewrite Forall_forall in Hblock. specialize (Hblock _ Hline).
  unfold single_line, nl in *. rewrite !includes_char_app in Hblock.
  apply orb_false_iff in Hblock as [_ Hblock].
  now apply orb_false_iff in Hblock as [Hblock _].
Qed.

(** X4. Every record that the parser returns, on any content, has a
    name and a version that are not empty and hold neither a double
    quote nor a line feed; so does its source when it has one. *)
Theorem parse_content_valid_records (content : string) :
  Forall valid_record (parse_content content).
Proof.
  rewrite parse_content_spec. unfold spec_parse, blocks.
  pose proof (segments_lines (split newline_char content)) as Hseg.
  pose proof (split_pieces newline_char content) as Hlines.
  apply Forall_forall. intros r Hr.
  apply list_elem_of_omap in Hr as (block & Hblock & Hrec).
  assert (Hsingle : Forall single_line block).
  { apply Forall_forall. intros l Hl.
    apply (proj1 (Forall_forall _ _) Hlines).
    apply (proj1 (Forall_forall _ _) Hseg block); [|exact Hl].
    destruct (segments (split newline_char content)); [inversion Hblock|].
    now apply list_elem_of_further. }
  unfold block_record in Hrec.
  destruct (field_of "name" block) as [n|] eqn:En; [|discriminate].
  destruct (field_of "version" block) as [v|] eqn:Ev; [|discriminate].
  injection Hrec as <-. unfold valid_record. simpl.
  split; [eapply field_of_valid; eassumption|].
  split; [eapply field_of_valid; eassumption|].
  intros s Hs. eapply field_of_valid; eassumption.
Qed.

Lemma segments_length (lines : list string) :
  length (segments lines) = S (count_delimiters lines).
Proof.
  unfold count_delimiters. induction lines as [|line rest IH]; simpl; [reflexivity|].
  destruct (String.eqb line delimiter); simpl; [now rewrite IH|].
  pose proof (segments_not_nil rest) as Hne.
  destruct (segments rest); [contradiction|exact IH].
Qed.

Lemma length_omap_le {A B : Type} (f : A -> option B) (l : list A) :
  (length (omap f l) <= length l)%nat.
Proof.
  induction l as [|x l IH]; csimpl; [lia|]. destruct (f x); simpl; lia.
Qed.

(** X5. The parser returns at most one record per delimiter line: the
    number of records never exceeds the number of lines that are
    exactly [[[package]]], whatever else the content holds. *)
Theorem parse_content_at_most_delimiters (content : string) :
  (length (parse_content content)
   <= count_delimiters (split newline_char content))%nat.
Proof.
  rewrite parse_content_spec. unfold spec_parse, blocks.
  pose proof (segments_length (split newline_char content)) as Hlen.
  pose proof (length_omap_le block_record
                (tail (segments (split newline_char content)))) as Hle.
  destruct (segments (split newline_char content)); simpl in *; lia.
Qed.

Lemma ends_with_cr_not_delimiter (line : string) :
  ends_with carriage_return line = true -> String.eqb line delimiter = false.
Proof.
  intros Hcr. destruct (String.eqb_spec line delimiter) as [->|]; [|reflexivity].
  discriminate Hcr.
Qed.

Lemma segments_no_delimiter (lines : list string) :
  Forall (fun l => String.eqb l delimiter = false) lines ->
  forall last : string,
  segments (lines ++ [last]) =
  if String.eqb last delimiter then [lines; []] else [lines ++ [last]].
Proof.
  induction 1 as [|line rest Hline _ IH]; intros last; simpl.
  - destruct (String.eqb last delimiter); reflexivity.
  - rewrite Hline, IH. destruct (String.eqb last delimiter); reflexivity.
Qed.

(** X6. A lockfile with CRLF line endings yields no record at all:
    when every line but the last ends with a carriage return, no line
    that has a successor is exactly the delimiter, and the parser
    returns the empty sequence whatever the packages in the file. *)
Theorem parse_content_crlf (content : string) (lines : list string)
    (last : string) :
  split newline_char content = lines ++ [last] ->
  Forall (fun l => ends_with carriage_return l = true) lines ->
  parse_content content = [].
Proof.
  intros Hsplit Hcr. rewrite parse_content_spec. unfold spec_parse, blocks.
  rewrite Hsplit, segments_no_delimiter.
  - destruct (String.eqb last delimiter); reflexivity.
  - eapply Forall_impl; [exact Hcr|]. apply ends_with_cr_not_delimiter.
Qed.

Lemma parse_content_crlf_witness :
  let cr := String carriage_return EmptyString in
  let lines := [ "[[package]]" +:+ cr;
                 "name = " +:+ dq +:+ "blake3" +:+ dq +:+ cr;
                 "version = " +:+ dq +:+ "1.8.3" +:+ dq +:+ cr ] in
  let content := join nl (lines ++ [EmptyString]) in
  split newline_char content = lines ++ [EmptyString] /\
  Forall (fun l => ends_with carriage_return l = true) lines /\
  parse_content content = [].
Proof.
  intros cr lines content.
  assert (Hsplit : split newline_char content = lines ++ [EmptyString])
    by reflexivity.
  assert (Hcr : Forall (fun l => ends_with carriage_return l = true) lines)
    by (repeat constructor).
  split; [exact Hsplit|split; [exact Hcr|]].
  exact (parse_content_crlf content lines EmptyString Hsplit Hcr).
Defined.

(** *** Reading back a rendered lockfile *)

Lemma strip_prefix_append (p r : string) : strip_prefix p (p +:+ r) = Some r.
Proof.
  induction p as [|a p IH]; [reflexivity|].
  change (String a p +:+ r) with (String a (p +:+ r)).
  cbn [strip_prefix]. now rewrite Ascii.eqb_refl.
Qed.

Lemma span_unquoted_closed (v rest : string) :
  includes dq v = false ->
  span_unquoted (v +:+ String dquote_char rest) = (v, String dquote_char rest).
Proof.
  induction v as [|a r IH]; intros Hq.
  - reflexivity.
  - unfold dq in Hq. rewrite includes_char_cons in Hq.
    apply orb_false_iff in Hq as [Ha Hr].
    change (String a r +:+ String dquote_char rest)
      with (String a (r +:+ String dquote_char rest)).
    cbn [span_unquoted]. rewrite Ascii.eqb_sym, Ha. now rewrite (IH Hr).
Qed.

Lemma match_field_quoted (key v : string) :
  valid_field v -> match_field key (quoted_line key v) = Some v.
Proof.
  intros (Hne & Hq & _). unfold match_field, match_key, quoted_line.
  rewrite strip_prefix_append.
  change (" = " +:+ dq +:+ v +:+ dq)
    with (String " " (String "=" (String " "
            (String dquote_char (v +:+ String dquote_char EmptyString))))).
  cbn [skip_ws].
  change (is_ws " ") with true. change (is_ws "=") with false. cbv iota.
  change (Ascii.eqb "=" "=") with true. cbv iota.
  cbn [skip_ws].
  change (is_ws " ") with true. change (is_ws dquote_char) with false. cbv iota.
  rewrite Ascii.eqb_refl, (span_unquoted_closed v EmptyString Hq).
  destruct v; [contradiction|reflexivity].
Qed.

Lemma quoted_line_single_line (key v : string) :
  single_line key -> single_line v -> single_line (quoted_line key v).
Proof.
  unfold single_line, quoted_line, nl. intros Hk Hv.
  rewrite !includes_char_app, Hk, Hv. reflexivity.
Qed.

Lemma scan_line_inert (line : string) (p : Partial) :
  inert line -> scan_line line p = p.
Proof.
  intros (_ & Hn & Hv & Hs). unfold scan_line. rewrite Hn, Hv, Hs.
  destruct p; reflexivity.
Qed.

Lemma parse_lines_inert (others rest : list string) :
  Forall inert others ->
  forall (packages : list PackageRecord) (p : Partial),
  parse_lines (others ++ rest) packages (Some p) =
  parse_lines rest packages (Some p).
Proof.
  induction 1 as [|line others Hline _ IH]; intros packages p; [reflexivity|].
  cbn [app parse_lines]. rewrite (proj1 Hline), (scan_line_inert _ _ Hline).
  apply IH.
Qed.

Lemma parse_lines_preamble (header rest : list string) :
  Forall (fun l => String.eqb l delimiter = false) header ->
  forall packages : list PackageRecord,
  parse_lines (header ++ rest) packages None = parse_lines rest packages None.
Proof.
  induction 1 as [|line header Hline _ IH]; intros packages; [reflexivity|].
  cbn [app parse_lines]. rewrite Hline. apply IH.
Qed.

(** One rendered block: the record in progress is pushed at the
    delimiter, and the block leaves its own record in progress. *)
Lemma parse_lines_package (r : PackageRecord) (others rest : list string) :
  valid_record r -> Forall inert others ->
  forall (packages : list PackageRecord) (cur : option Partial),
  parse_lines (render_package (r, others) ++ rest) packages cur =
  parse_lines rest (push_complete packages cur)
    (Some {| p_name := Some (pkg_name r); p_version := Some (pkg_version r);
             p_source := pkg_source r |}).
Proof.
  intros (Hn & Hv & Hs) Hothers packages cur.
  destruct r as [n v src]. cbn [pkg_name pkg_version pkg_source] in *.
  unfold render_package. cbn [fst snd pkg_name pkg_version pkg_source].
  cbn [app parse_lines].
  replace (String.eqb delimiter delimiter) with true by reflexivity.
  replace (String.eqb (quoted_line "name" n) delimiter) with false by reflexivity.
  replace (String.eqb (quoted_line "version" v) delimiter) with false
    by reflexivity.
  unfold scan_line.
  rewrite (match_field_quoted "name" n Hn), (match_field_quoted "version" v Hv).
  replace (match_field "version" (quoted_line "name" n)) with (@None string)
    by reflexivity.
  replace (match_field "source" (quoted_line "name" n)) with (@None string)
    by reflexivity.
  replace (match_field "name" (quoted_line "version" v)) with (@None string)
    by reflexivity.
  replace (match_field "source" (quoted_line "version" v)) with (@None string)
    by reflexivity.
  cbn [assign p_name p_version p_source empty_partial].
  destruct src as [s|].
  - cbn [app parse_lines].
    replace (String.eqb (quoted_line "source" s) delimiter) with false
      by reflexivity.
    unfold scan_line. rewrite (match_field_quoted "source" s (Hs s eq_refl)).
    replace (match_field "name" (quoted_line "source" s)) with (@None string)
      by reflexivity.
    replace (match_field "version" (quoted_line "source" s)) with (@None string)
      by reflexivity.
    cbn [assign p_name p_version p_source].
    now apply parse_lines_inert.
  - cbn [app]. now apply parse_lines_inert.
Qed.

Lemma complete_valid (r : PackageRecord) :
  valid_record r ->
  complete (Some {| p_name := Some (pkg_name r); p_version := Some (pkg_version r);
                    p_source := pkg_source r |}) = Some r.
Proof.
  intros ((Hn & _) & (Hv & _) & _). destruct r as [n v src]. simpl in *.
  destruct n; [contradiction|]. destruct v; [contradiction|]. reflexivity.
Qed.

Lemma parse_lines_entries (entries : list (PackageRecord * list string)) :
  Forall (fun e => valid_record (fst e) /\ Forall inert (snd e)) entries ->
  forall (packages : list PackageRecord) (cur : option Partial),
  parse_lines (concat (map render_package entries)) packages cur =
  push_complete packages cur ++ map fst entries.
Proof.
  induction 1 as [|[r others] entries [Hr Hothers] _ IH]; intros packages cur.
  - simpl. now rewrite app_nil_r.
  - cbn [map concat fst snd] in *.
    rewrite (parse_lines_package r others _ Hr Hothers), IH.
    unfold push_complete at 1. rewrite (complete_valid r Hr).
    now rewrite <- app_assoc.
Qed.

Lemma render_package_single_line (e : PackageRecord * list string) :
  valid_record (fst e) -> Forall single_line (snd e) ->
  Forall single_line (render_package e).
Proof.
  intros ((_ & _ & Hn) & (_ & _ & Hv) & Hs) Hothers.
  unfold render_package.
  constructor; [reflexivity|].
  constructor; [now apply quoted_line_single_line|].
  constructor; [now apply quoted_line_single_line|].
  apply Forall_app. split; [|exact Hothers].
  destruct (pkg_source (fst e)) as [s|]; [|constructor].
  constructor; [|constructor].
  apply quoted_line_single_line; [reflexivity|]. now destruct (Hs s eq_refl) as (_ & _ & ?).
Qed.

(** X7. Reading back a lockfile gives its records.  The text made of
    header lines (none of them the delimiter) followed, for each record
    in turn, by the delimiter line, the name line, the version line,
    the source line when the record has a source, and any lines that
    match no pattern, parses to exactly the records, in order,
    provided every field is valid (not empty, without double quote or
    line feed) and every line is free of line feeds. *)
Theorem parse_content_render_lock (header : list string)
    (entries : list (PackageRecord * list string)) :
  Forall (fun l => single_line l /\ String.eqb l delimiter = false) header ->
  Forall (fun e => valid_record (fst e)
                   /\ Forall (fun l => single_line l /\ inert l) (snd e)) entries ->
  parse_content (render_lock header entries) = map fst entries.
Proof.
  intros Hheader Hentries.
  assert (Hvalid : Forall (fun e => valid_record (fst e) /\ Forall inert (snd e))
                     entries).
  { eapply Forall_impl; [exact Hentries|]. intros e [Hr Ho]. split; [exact Hr|].
    eapply Forall_impl; [exact Ho|]. now intros l [_ Hl]. }
  assert (Hlines : Forall single_line
                     (header ++ concat (map render_package entries))).
  { apply Forall_app. split.
    - eapply Forall_impl; [exact Hheader|]. now intros l [Hl _].
    - clear Hvalid. induction Hentries as [|e es [Hr Ho] _ IH]; [constructor|].
      cbn [map concat]. apply Forall_app. split; [|exact IH].
      apply render_package_single_line; [exact Hr|].
      eapply Forall_impl; [exact Ho|]. now intros l [Hl _]. }
  unfold parse_content, render_lock.
  destruct (header ++ concat (map render_package entries)) as [|l0 ls] eqn:El.
  - apply app_eq_nil in El as [-> Hc].
    destruct entries as [|e es]; [reflexivity|discriminate Hc].
  - rewrite split_join by (discriminate || exact Hlines).
    rewrite <- El, parse_lines_preamble.
    + now rewrite (parse_lines_entries entries Hvalid).
    + eapply Forall_impl; [exact Hheader|]. now intros l [_ Hl].
Qed.

Lemma parse_content_render_lock_witness :
  let header := [ "# This file is automatically @generated by Cargo.";
                  "# It is not intended for manual editing.";
                  "version = 4"; EmptyString ] in
  let blake3 := {| pkg_name := "blake3"; pkg_version := "1.8.3";
                   pkg_source := Some "registry+https://github.com/rust-lang/crates.io-index" |} in
  let app := {| pkg_name := "app"; pkg_version := "0.1.0"; pkg_source := None |} in
  let entries := [ (app, [ "dependencies = ["; " " +:+ dq +:+ "blake3" +:+ dq +:+ ",";
                           "]"; EmptyString ]);
                   (blake3, [ "checksum = " +:+ dq +:+ "3888aaa89e4b" +:+ dq;
                              EmptyString ]) ] in
  Forall (fun l => single_line l /\ String.eqb l delimiter = false) header /\
  Forall (fun e => valid_record (fst e)
                   /\ Forall (fun l => single_line l /\ inert l) (snd e)) entries /\
  parse_content (render_lock header entries) = [app; blake3].
Proof.
  intros header blake3 app entries.
  assert (Hheader : Forall (fun l => single_line l
                                     /\ String.eqb l delimiter = false) header)
    by (repeat constructor).
  assert (Hentries : Forall (fun e => valid_record (fst e)
                       /\ Forall (fun l => single_line l /\ inert l) (snd e))
                       entries).
  { repeat first
      [ apply Forall_nil_2
      | apply Forall_cons; split
      | (intros x Hx; first [discriminate Hx | injection Hx as <-])
      | discriminate
      | split ]. }
  split; [exact Hheader|split; [exact Hentries|]].
  exact (parse_content_render_lock header entries Hheader Hentries).
Defined.

(** ** More on the issue detector *)

Lemma detect_loop_inherited (crates : gmap string CrateInfo)
    (packages : list PackageRecord) :
  Exists (fun pkg => crates !! pkg_name pkg = None
                     /\ pkg_name pkg ∈ object_prototype_keys) packages ->
  forall acc : list Issue,
  detect_loop crates packages acc = Throw split_of_undefined.
Proof.
  induction 1 as [pkg rest [Hnone Hin]|pkg rest _ IH]; intros acc;
    cbn [detect_loop]; unfold get_property.
  - rewrite Hnone, (bool_decide_eq_true_2 _ Hin). reflexivity.
  - destruct (crates !! pkg_name pkg) as [c|].
    + destruct (0 <? _); apply IH.
    + destruct (bool_decide _); [reflexivity|apply IH].
Qed.

Lemma reads_inherited_false (crates : gmap string CrateInfo) (pkg : PackageRecord) :
  (pkg_name pkg ∈ object_prototype_keys -> is_Some (crates !! pkg_name pkg)) ->
  reads_inherited crates pkg = false.
Proof.
  intros Hown. unfold reads_inherited, get_property.
  destruct (crates !! pkg_name pkg) as [c|]; [reflexivity|].
  destruct (bool_decide_reflect (pkg_name pkg ∈ object_prototype_keys)) as [Hin|];
    [|reflexivity].
  destruct (Hown Hin) as [? [=]].
Qed.

(** X8. The detector either returns or raises, by the package names
    alone.  When every package name that is a member name of
    [Object.prototype] is also a key of the table, it returns the
    issues of exactly the packages whose name is a key and whose
    version is strictly greater than the entry's [maxCompatible], in
    package order.  When some package name is such a member name and
    not a key, it raises a TypeError, whatever the other packages. *)
Theorem findProblematicDeps_outcome (crates : gmap string CrateInfo)
    (packages : list PackageRecord) :
  (Forall (fun pkg => pkg_name pkg ∈ object_prototype_keys ->
                      is_Some (crates !! pkg_name pkg)) packages ->
   findProblematicDeps crates packages = Ok (omap (issue_of crates) packages)) /\
  (Exists (fun pkg => crates !! pkg_name pkg = None
                      /\ pkg_name pkg ∈ object_prototype_keys) packages ->
   findProblematicDeps crates packages = Throw split_of_undefined).
Proof.
  split.
  - intros Hown. apply findProblematicDeps_own_names.
    eapply Forall_impl; [exact Hown|]. apply reads_inherited_false.
  - intros Hin. now apply detect_loop_inherited.
Qed.

Lemma findProblematicDeps_outcome_witness :
  let entry := {| crate_maxCompatible := "1.5.0"; crate_firstIncompatible := None;
                  crate_reason := None; crate_usedBy := None;
                  crate_priority := None |} in
  let crates : gmap string CrateInfo :=
    {[ "blake3" := entry; "constructor" := entry ]} in
  let bare : gmap string CrateInfo := {[ "blake3" := entry ]} in
  let packages := [ {| pkg_name := "constructor"; pkg_version := "2.0.0";
                       pkg_source := None |};
                    {| pkg_name := "serde"; pkg_version := "1.0.0";
                       pkg_source := None |};
                    {| pkg_name := "blake3"; pkg_version := "1.5.0";
                       pkg_source := None |} ] in
  Forall (fun pkg => pkg_name pkg ∈ object_prototype_keys ->
                     is_Some (crates !! pkg_name pkg)) packages /\
  findProblematicDeps crates packages = Ok (omap (issue_of crates) packages) /\
  Exists (fun pkg => bare !! pkg_name pkg = None
                     /\ pkg_name pkg ∈ object_prototype_keys) packages /\
  findProblematicDeps bare packages = Throw split_of_undefined.
Proof.
  intros entry crates bare packages.
  assert (Hown : Forall (fun pkg => pkg_name pkg ∈ object_prototype_keys ->
                                    is_Some (crates !! pkg_name pkg)) packages).
  { repeat (apply Forall_cons; split); try apply Forall_nil_2; intros Hin.
    - exists entry. vm_compute. reflexivity.
    - apply (bool_decide_eq_true_2 _) in Hin. vm_compute in Hin. discriminate.
    - exists entry. vm_compute. reflexivity. }
  assert (Hinherited : Exists (fun pkg => bare !! pkg_name pkg = None
                          /\ pkg_name pkg ∈ object_prototype_keys) packages).
  { apply Exists_cons_hd. split; [vm_compute; reflexivity|].
    apply list_elem_of_here. }
  split; [exact Hown|].
  split; [exact (proj1 (findProblematicDeps_outcome crates packages) Hown)|].
  split; [exact Hinherited|].
  exact (proj2 (findProblematicDeps_outcome bare packages) Hinherited).
Defined.

Lemma issue_of_names_sublist (crates : gmap string CrateInfo)
    (packages : list PackageRecord) :
  sublist (map name (omap (issue_of crates) packages)) (map pkg_name packages).
Proof.
  induction packages as [|pkg rest IH]; csimpl; [constructor|].
  destruct (issue_of crates pkg) as [issue|] eqn:E.
  - assert (name issue = pkg_name pkg) as <-.
    { unfold issue_of in E. destruct (crates !! pkg_name pkg); [|discriminate].
      destruct (0 <? _); [|discriminate]. now injection E as <-. }
    apply sublist_skip. exact IH.
  - apply sublist_cons. exact IH.
Qed.

(** X9. Whatever the detector returns is sound: every issue has a
    [currentVersion] strictly greater than its [maxCompatible] under
    [compareVersions], its [maxCompatible] is the one of the table
    entry of its name, the issue names follow the package order (they
    are a subsequence of the package names) and there are at most as
    many issues as packages. *)
Theorem findProblematicDeps_sound (crates : gmap string CrateInfo)
    (packages : list PackageRecord) (issues : list Issue) :
  findProblematicDeps crates packages = Ok issues ->
  Forall (fun issue =>
            0 < compareVersions (currentVersion issue) (maxCompatible issue)
            /\ exists crateInfo : CrateInfo,
                 crates !! name issue = Some crateInfo
                 /\ maxCompatible issue = crate_maxCompatible crateInfo) issues /\
  sublist (map name issues) (map pkg_name packages) /\
  (length issues <= length packages)%nat.
Proof.
  intros Hok. apply detect_loop_ok in Hok. simpl in Hok. subst issues.
  split; [|split].
  - apply Forall_forall. intros issue Hin.
    apply list_elem_of_omap in Hin as (pkg & _ & Hissue).
    split; [eapply issue_of_greater; eassumption|].
    unfold issue_of in Hissue.
    destruct (crates !! pkg_name pkg) as [c|] eqn:Ec; [|discriminate].
    destruct (0 <? _); [|discriminate]. injection Hissue as <-.
    exists c. split; [exact Ec|reflexivity].
  - apply issue_of_names_sublist.
  - apply length_omap_le.
Qed.

Lemma findProblematicDeps_sound_witness :
  let crates : gmap string CrateInfo :=
    {[ "zeroize" := {| crate_maxCompatible := "1.7.0";
                       crate_firstIncompatible := Some "1.8.0";
                       crate_reason := Some "1.8.0+ requires edition 2024";
                       crate_usedBy := Some ["curve25519-dalek"];
                       crate_priority := None |} ]} in
  let packages := [ {| pkg_name := "serde"; pkg_version := "1.0.0";
                       pkg_source := None |};
                    {| pkg_name := "zeroize"; pkg_version := "1.8.1";
                       pkg_source := None |} ] in
  let issues := [ {| name := "zeroize"; currentVersion := "1.8.1";
                     maxCompatible := "1.7.0"; firstIncompatible := Some "1.8.0";
                     reason := "1.8.0+ requires edition 2024";
                     usedBy := ["curve25519-dalek"]; source := None |} ] in
  findProblematicDeps crates packages = Ok issues /\
  sublist (map name issues) (map pkg_name packages).
Proof.
  intros crates packages issues.
  assert (Hok : findProblematicDeps crates packages = Ok issues)
    by (vm_compute; reflexivity).
  split; [exact Hok|].
  exact (proj1 (proj2 (findProblematicDeps_sound crates packages issues Hok))).
Defined.

(** X10. Once every package that the table knows is at the table's
    [maxCompatible] version, the detector finds nothing: if no package
    name reads a member of [Object.prototype] and the version of every
    package whose name is a key equals the entry's [maxCompatible], the
    result is the empty list. *)
Theorem findProblematicDeps_pinned (crates : gmap string CrateInfo)
    (packages : list PackageRecord) :
  Forall (fun pkg => pkg_name pkg ∈ object_prototype_keys ->
                     is_Some (crates !! pkg_name pkg)) packages ->
  Forall (fun pkg => forall crateInfo : CrateInfo,
                       crates !! pkg_name pkg = Some crateInfo ->
                       pkg_version pkg = crate_maxCompatible crateInfo) packages ->
  findProblematicDeps crates packages = Ok [].
Proof.
  intros Hown Hpinned.
  rewrite findProblematicDeps_own_names
    by (eapply Forall_impl; [exact Hown|]; apply reads_inherited_false).
  f_equal. clear Hown.
  induction Hpinned as [|pkg rest Hpkg _ IH]; csimpl; [reflexivity|].
  rewrite IH. unfold issue_of.
  destruct (crates !! pkg_name pkg) as [c|]; [|reflexivity].
  rewrite (Hpkg c eq_refl). unfold compareVersions.
  now rewrite compare_loop_refl.
Qed.

Lemma findProblematicDeps_pinned_witness :
  let entry m := {| crate_maxCompatible := m; crate_firstIncompatible := None;
                    crate_reason := None; crate_usedBy := None;
                    crate_priority := None |} in
  let crates : gmap string CrateInfo :=
    {[ "blake3" := entry "1.5.0"; "subtle" := entry "2.5.0" ]} in
  let packages := [ {| pkg_name := "blake3"; pkg_version := "1.5.0";
                       pkg_source := None |};
                    {| pkg_name := "serde"; pkg_version := "1.0.219";
                       pkg_source := None |};
                    {| pkg_name := "subtle"; pkg_version := "2.5.0";
                       pkg_source := None |} ] in
  findProblematicDeps crates packages = Ok [].
Proof.
  intros entry crates packages.
  apply findProblematicDeps_pinned.
  - repeat (apply Forall_cons; split); try apply Forall_nil_2; intros Hin;
      apply (bool_decide_eq_true_2 _) in Hin; vm_compute in Hin; discriminate.
  - repeat (apply Forall_cons; split); try apply Forall_nil_2; intros c Hc;
      vm_compute in Hc; first [discriminate Hc | now injection Hc as <-].
Defined.

(** ** Generators and their users *)

Lemma command_line_spawn_event (projectPath : string) (options : Options)
    (issue : Issue) :
  command_line (spawn_event projectPath options issue) = Some (update_command issue).
Proof. reflexivity. Qed.

Lemma command_lines_spawn_events (projectPath : string) (options : Options)
    (issues : list Issue) :
  omap command_line (map (spawn_event projectPath options) issues) =
  generateCargoUpdateCommands issues.
Proof.
  induction issues as [|i r IH]; [reflexivity|].
  unfold generateCargoUpdateCommands in *. cbn [map].
  rewrite <- IH. reflexivity.
Qed.

Lemma command_lines_config_calls {W : Type} `{Sys W} (projectPath : string)
    (calls : list Event) :
  Forall (fun e => e ∈ config_calls projectPath) calls ->
  omap command_line calls = [].
Proof.
  induction 1 as [|e l He _ IH]; [reflexivity|].
  csimpl. unfold config_calls in He.
  rewrite !elem_of_cons in He. rewrite elem_of_nil in He.
  destruct He as [->|[->|[->|[->|[]]]]]; exact IH.
Qed.

Lemma applyFixes_command_lines {W : Type} `{Sys W}
    (projectPath : string) (issues : list Issue) (options : Options) (s : St W) :
  omap command_line (trace (snd (applyFixes projectPath issues options s))) =
  omap command_line (trace s) ++ generateCargoUpdateCommands issues.
Proof.
  destruct (config_step_spec projectPath initial_results s)
    as (r1 & s1 & calls & Hcfg & Htrace1 & Hcalls & _).
  destruct (fix_loop_spec projectPath options issues r1 s1)
    as (r2 & s2 & Hloop & Htrace2 & _).
  unfold applyFixes, bind. rewrite Hcfg, Hloop. cbn [snd].
  rewrite Htrace2, Htrace1, !omap_app.
  rewrite (command_lines_config_calls projectPath calls Hcalls), app_nil_r.
  now rewrite command_lines_spawn_events.
Qed.

(** X11. The commands that [generateCargoUpdateCommands] lists are the
    commands that [applyFixes] runs: in every environment, the command
    lines of the subprocesses started by [applyFixes] on an issue list
    (the command and its arguments separated by spaces) are exactly the
    strings generated for that list, in the same order. *)
Theorem applyFixes_runs_generated_commands {W : Type} `{Sys W}
    (projectPath : string) (issues : list Issue) (options : Options) (s : St W) :
  omap command_line (trace (snd (applyFixes projectPath issues options s))) =
  omap command_line (trace s) ++ generateCargoUpdateCommands issues.
Proof.
  destruct (config_step_spec projectPath initial_results s)
    as (r1 & s1 & calls & Hcfg & Htrace1 & Hcalls & _).
  destruct (fix_loop_spec projectPath options issues r1 s1)
    as (r2 & s2 & Hloop & Htrace2 & _).
  unfold applyFixes, bind. rewrite Hcfg, Hloop. cbn [snd].
  rewrite Htrace2, Htrace1, !omap_app.
  rewrite (command_lines_config_calls projectPath calls Hcalls), app_nil_r.
  now rewrite command_lines_spawn_events.
Qed.

Lemma includes_unfold (needle s : string) :
  includes needle s =
  match strip_prefix needle s with
  | Some _ => true
  | None => match s with
            | EmptyString => false
            | String _ r => includes needle r
            end
  end.
Proof. destruct s; reflexivity. Qed.

Lemma includes_middle (needle pre post : string) :
  includes needle (pre +:+ needle +:+ post) = true.
Proof.
  induction pre as [|a r IH].
  - change (EmptyString +:+ needle +:+ post) with (needle +:+ post).
    rewrite includes_unfold. now rewrite strip_prefix_append.
  - change (String a r +:+ needle +:+ post)
      with (String a (r +:+ needle +:+ post)).
    rewrite includes_unfold. destruct (strip_prefix _ _); [reflexivity|exact IH].
Qed.

Lemma generatePatchSection_header (issues : list Issue) :
  exists rest : string, generatePatchSection issues = patch_header +:+ rest.
Proof.
  unfold generatePatchSection. rewrite patch_loop_lines. cbn [app].
  destruct (map patch_line issues) as [|l ls].
  - exists EmptyString. reflexivity.
  - exists (nl +:+ join nl (l :: ls)). reflexivity.
Qed.

(** X12. A generated patch section is recognised once it is in the
    manifest: when the manifest holds the text of
    [generatePatchSection] for any issue list, anywhere in it,
    [checkCargoToml] reports [hasPatchSection = true]. *)
Theorem checkCargoToml_sees_generated_patch {W : Type} `{Sys W}
    (projectPath before after : string) (issues : list Issue) (s : St W) :
  existsSync (path_join [projectPath; "Cargo.toml"]) (world s) = true ->
  readFileSync (path_join [projectPath; "Cargo.toml"]) (world s) =
    Ok (before +:+ generatePatchSection issues +:+ after) ->
  exists (hasRustVersion : bool) (rustVersion : option string) (path : string),
    fst (checkCargoToml projectPath s) =
    Ok (TomlPresent hasRustVersion rustVersion true path).
Proof.
  intros Hex Hread.
  rewrite (checkCargoToml_present projectPath _ s Hex Hread). cbn [fst].
  destruct (generatePatchSection_header issues) as [rest ->].
  rewrite string_app_assoc.
  change patch_header with "[patch.crates-io]".
  rewrite includes_middle. eauto.
Qed.

Lemma checkCargoToml_sees_generated_patch_witness :
  let issues := [ {| name := "blake3"; currentVersion := "1.8.3";
                     maxCompatible := "1.5.0"; firstIncompatible := None;
                     reason := "Requires edition 2024"; usedBy := [];
                     source := None |} ] in
  let before := "[package]" +:+ nl +:+ "name = " +:+ dq +:+ "app" +:+ dq +:+ nl +:+ nl in
  let w := {| files := {[ "app/Cargo.toml" :=
                            before +:+ generatePatchSection issues +:+ nl ]};
              dirs := ["app"]; read_only := false; script := [] |} in
  exists (hasRustVersion : bool) (rustVersion : option string) (path : string),
    fst (run (checkCargoToml "app") w) =
    Ok (TomlPresent hasRustVersion rustVersion true path).
Proof.
  intros issues before w.
  apply (checkCargoToml_sees_generated_patch "app" before nl issues (mkSt w []));
    vm_compute; reflexivity.
Defined.

Lemma search_match_field (key s v : string) :
  search (match_field key) s = Some v ->
  (exists t : string, match_field key t = Some v) /\
  is_Some (search (match_key key) s).
Proof.
  induction s as [|a r IH]; cbn [search].
  - destruct (match_field key EmptyString) as [v'|] eqn:E; [|discriminate].
    intros [= <-]. split; [eauto|].
    unfold match_field in E. destruct (match_key key EmptyString); [eauto|discriminate].
  - destruct (match_field key (String a r)) as [v'|] eqn:E.
    + intros [= <-]. split; [eauto|].
      unfold match_field in E.
      destruct (match_key key (String a r)); [eauto|discriminate].
    + intros Hs. destruct (IH Hs) as [Ht Hk]. split; [exact Ht|].
      destruct (match_key key (String a r)); [eauto|exact Hk].
Qed.

(** X13. The manifest record is consistent: whenever [checkCargoToml]
    returns, either the manifest does not exist and the record is
    [{ exists: false }], or the record carries the manifest path, and
    a [rustVersion] that is present is not empty, holds no double
    quote and comes with [hasRustVersion = true]. *)
Theorem checkCargoToml_consistent {W : Type} `{Sys W}
    (projectPath : string) (s : St W) (info : CargoTomlInfo) :
  fst (checkCargoToml projectPath s) = Ok info ->
  match info with
  | TomlAbsent =>
      existsSync (path_join [projectPath; "Cargo.toml"]) (world s) = false
  | TomlPresent hasRustVersion rustVersion hasPatchSection path =>
      existsSync (path_join [projectPath; "Cargo.toml"]) (world s) = true /\
      path = path_join [projectPath; "Cargo.toml"] /\
      (forall v : string, rustVersion = Some v ->
         hasRustVersion = true /\ v <> EmptyString /\ includes dq v = false)
  end.
Proof.
  destruct s as [w t]. unfold checkCargoToml. run_calls.
  destruct (existsSync (path_join [projectPath; "Cargo.toml"]) w) eqn:Hex.
  - destruct (readFileSync (path_join [projectPath; "Cargo.toml"]) w)
      as [content|msg]; [|discriminate].
    intros [= <-]. split; [reflexivity|]. split; [reflexivity|].
    intros v Hv. apply search_match_field in Hv as [[line Ht] [r Hk]].
    rewrite Hk. split; [reflexivity|].
    apply match_field_piece in Ht as (Hne & Hq & _). now split.
  - now intros [= <-].
Qed.

Lemma checkCargoToml_consistent_witness :
  let manifest := "[package]" +:+ nl +:+ "rust-version   =  " +:+ dq +:+ "1.75"
                  +:+ dq +:+ nl in
  let w := {| files := {[ "app/Cargo.toml" := manifest ]};
              dirs := ["app"]; read_only := false; script := [] |} in
  fst (run (checkCargoToml "app") w) =
    Ok (TomlPresent true (Some "1.75") false "app/Cargo.toml") /\
  (forall v : string, Some "1.75" = Some v ->
     true = true /\ v <> EmptyString /\ includes dq v = false).
Proof.
  intros manifest w.
  assert (Hrun : fst (checkCargoToml "app" (mkSt w [])) =
                 Ok (TomlPresent true (Some "1.75") false "app/Cargo.toml"))
    by (vm_compute; reflexivity).
  split; [exact Hrun|].
  exact (proj2 (proj2 (checkCargoToml_consistent "app" (mkSt w []) _ Hrun))).
Defined.

(** ** More on [analyze] *)

(** Reduce the combinators and split on the next answer of the
    environment. *)
Ltac case_call :=
  run_calls;
  match goal with
  | |- context [existsSync ?p ?w] => destruct (existsSync p w) eqn:?
  | |- context [readFileSync ?p ?w] => destruct (readFileSync p w) eqn:?
  | |- context [findProblematicDeps ?c ?p] =>
      destruct (findProblematicDeps c p) eqn:?
  end.

(** The frame of [analyze]: the world is untouched and the calls are
    existence tests and reads of the two files. *)
Lemma analyze_frame {W : Type} `{Sys W}
    (crates : gmap string CrateInfo) (projectPath : string) (s : St W) :
  let cargoTomlPath := path_join [projectPath; "Cargo.toml"] in
  let cargoLockPath := path_join [projectPath; "Cargo.lock"] in
  world (snd (analyze crates projectPath s)) = world s /\
  exists calls : list Event,
    trace (snd (analyze crates projectPath s)) = trace s ++ calls /\
    Forall (fun e => e ∈ [ EvExists cargoTomlPath; EvRead cargoTomlPath;
                           EvExists cargoLockPath; EvRead cargoLockPath ]) calls.
Proof.
  intros cargoTomlPath cargoLockPath. destruct s as [w t].
  unfold analyze, checkCargoToml, parseCargoLock.
  fold cargoTomlPath cargoLockPath.
  repeat case_call; run_calls;
    (split; [reflexivity|]);
    rewrite <- ?app_assoc; eexists; (split; [reflexivity|]); calls_listed.
Qed.

(** X14. [analyze] only looks: whatever it returns or raises, it leaves
    the world as it found it, and its calls to the environment are
    existence tests and reads of the manifest and of the lockfile,
    nothing else (no write, no directory creation, no subprocess). *)
Theorem analyze_read_only {W : Type} `{Sys W}
    (crates : gmap string CrateInfo) (projectPath : string) (s : St W) :
  let cargoTomlPath := path_join [projectPath; "Cargo.toml"] in
  let cargoLockPath := path_join [projectPath; "Cargo.lock"] in
  world (snd (analyze crates projectPath s)) = world s /\
  exists calls : list Event,
    trace (snd (analyze crates projectPath s)) = trace s ++ calls /\
    Forall (fun e => e ∈ [ EvExists cargoTomlPath; EvRead cargoTomlPath;
                           EvExists cargoLockPath; EvRead cargoLockPath ]) calls.
Proof.
  intros cargoTomlPath cargoLockPath. destruct s as [w t].
  unfold analyze, checkCargoToml, parseCargoLock.
  fold cargoTomlPath cargoLockPath.
  repeat case_call; run_calls;
    (split; [reflexivity|]);
    rewrite <- ?app_assoc; eexists; (split; [reflexivity|]); calls_listed.
Qed.

(** The commands of a successful result are those generated for its
    issues. *)
Lemma analyze_result_fields {W : Type} `{Sys W}
    (crates : gmap string CrateInfo) (projectPath : string) (s : St W)
    (r : AnalysisResult) :
  fst (analyze crates projectPath s) = Ok r ->
  match r with
  | Analysis _ _ issues _ commands _ =>
      commands = generateCargoUpdateCommands issues
  | _ => True
  end.
Proof.
  destruct s as [w t]. unfold analyze, checkCargoToml, parseCargoLock.
  repeat case_call; run_calls; try discriminate; intros [= <-]; exact I || reflexivity.
Qed.

(** X15. What a result of [analyze] tells.  A result without manifest
    record means that the manifest is absent.  A result for a missing
    lockfile means that the manifest exists and the lockfile does not,
    and its manifest record is a real one.  A successful result means
    that both files exist; its [totalPackages] counts the records of
    the lockfile, its issues are those of these records (each with a
    version above its [maxCompatible], and no more of them than
    packages), its commands are one per issue and its patch section is
    the one generated for its issues. *)
Theorem analyze_result_invariants {W : Type} `{Sys W}
    (crates : gmap string CrateInfo) (projectPath : string) (s : St W)
    (r : AnalysisResult) :
  let cargoTomlPath := path_join [projectPath; "Cargo.toml"] in
  let cargoLockPath := path_join [projectPath; "Cargo.lock"] in
  fst (analyze crates projectPath s) = Ok r ->
  match r with
  | NoManifest _ => existsSync cargoTomlPath (world s) = false
  | NoLockfile _ info =>
      existsSync cargoTomlPath (world s) = true /\
      existsSync cargoLockPath (world s) = false /\
      info <> TomlAbsent
  | Analysis _ totalPackages issues info commands patchSection =>
      existsSync cargoTomlPath (world s) = true /\
      existsSync cargoLockPath (world s) = true /\
      info <> TomlAbsent /\
      (exists content : string,
         readFileSync cargoLockPath (world s) = Ok content /\
         totalPackages = length (parse_content content) /\
         issues = omap (issue_of crates) (parse_content content)) /\
      (length issues <= totalPackages)%nat /\
      Forall (fun issue =>
                0 < compareVersions (currentVersion issue) (maxCompatible issue))
             issues /\
      commands = generateCargoUpdateCommands issues /\
      length commands = length issues /\
      patchSection = generatePatchSection issues
  end.
Proof.
  intros cargoTomlPath cargoLockPath. destruct s as [w t].
  unfold analyze, checkCargoToml, parseCargoLock.
  fold cargoTomlPath cargoLockPath.
  repeat case_call; run_calls; try discriminate; intros [= <-];
    try reflexivity;
    try (split; [reflexivity|]; split; [reflexivity|discriminate]).
  match goal with
  | Hd : findProblematicDeps _ _ = Ok _ |- _ =>
      pose proof (detect_loop_ok _ _ _ _ Hd) as Hissues
  end.
  simpl in Hissues.
  split; [reflexivity|]. split; [reflexivity|]. split; [discriminate|].
  split; [eexists; split; [reflexivity|]; auto|].
  split; [subst; apply length_omap_le|].
  split.
  { subst. apply Forall_forall. intros issue Hin.
    apply list_elem_of_omap in Hin as (pkg & _ & Hissue).
    eapply issue_of_greater; eassumption. }
  split; [reflexivity|]. split; [|reflexivity].
  unfold generateCargoUpdateCommands. apply length_map.
Qed.

Lemma analyze_result_invariants_witness :
  let crates : gmap string CrateInfo :=
    {[ "blake3" := {| crate_maxCompatible := "1.5.0";
                      crate_firstIncompatible := None; crate_reason := None;
                      crate_usedBy := None; crate_priority := None |} ]} in
  let lock := render_lock [ "version = 4"; EmptyString ]
                [ ({| pkg_name := "blake3"; pkg_version := "1.8.3";
                      pkg_source := None |}, [EmptyString]);
                  ({| pkg_name := "serde"; pkg_version := "1.0.0";
                      pkg_source := None |}, [EmptyString]) ] in
  let w := {| files := {[ "app/Cargo.toml" := "[package]";
                          "app/Cargo.lock" := lock ]};
              dirs := ["app"]; read_only := false; script := [] |} in
  exists (r : AnalysisResult),
    fst (run (analyze crates "app") w) = Ok r /\
    match r with
    | Analysis _ totalPackages issues _ commands _ =>
        totalPackages = 2%nat /\ length issues = 1%nat /\
        length commands = length issues
    | _ => False
    end.
Proof.
  intros crates lock w.
  destruct (fst (run (analyze crates "app") w)) as [r|msg] eqn:Hrun;
    [|vm_compute in Hrun; discriminate Hrun].
  exists r. split; [reflexivity|].
  pose proof (analyze_result_invariants crates "app" (mkSt w []) r Hrun) as Hinv.
  destruct r as [e|e info|p n issues info commands patch];
    try (vm_compute in Hrun; discriminate Hrun).
  destruct Hinv as (_ & _ & _ & _ & _ & _ & _ & Hlen & _).
  vm_compute in Hrun. injection Hrun as <- <- <- <- <- <-.
  repeat split.
Defined.

(** ** More on the fix executor *)

Section ExecutorOrder.
Context {W : Type} `{Sys W}.

Lemma fix_issue_cases (projectPath : string) (options : Options)
    (issue : Issue) (r : FixResults) (s : St W) :
  let out := spawnSync "cargo" (update_args issue) projectPath
               (if verbose options then Inherit else Pipe) (world s) in
  fst (fix_issue projectPath options issue r s) =
  Ok match fst out with
     | Ok result =>
         if status_is_zero result then push_updated r (name issue)
         else if stderr_not_found result then push_skipped r (name issue)
         else push_failed r {| fail_name := name issue;
                               fail_error := stderr_or_unknown result |}
     | Throw message =>
         push_failed r {| fail_name := name issue; fail_error := message |}
     end.
Proof.
  destruct s as [w t]. unfold fix_issue. run_calls.
  destruct (spawnSync "cargo" (update_args issue) projectPath
              (if verbose options then Inherit else Pipe) w)
    as [[result|message] w1]; [|reflexivity].
  destruct (status_is_zero result); [reflexivity|].
  destruct (stderr_not_found result); reflexivity.
Qed.

(** The loop extends each list at its end, by names taken in the order
    of the issues. *)
Lemma fix_loop_order (projectPath : string) (options : Options)
    (issues : list Issue) : forall (r r' : FixResults) (s s' : St W),
  fix_loop projectPath options issues r s = (Ok r', s') ->
  exists (u k : list string) (f : list Failure),
    updated r' = updated r ++ u /\
    skipped r' = skipped r ++ k /\
    failed r' = failed r ++ f /\
    sublist u (map name issues) /\
    sublist k (map name issues) /\
    sublist (map fail_name f) (map name issues).
Proof.
  induction issues as [|issue rest IH]; intros r r' s s'.
  - intros [= <- <-]. exists [], [], []. rewrite !app_nil_r.
    repeat split; constructor.
  - cbn [fix_loop]. unfold bind.
    pose proof (fix_issue_cases projectPath options issue r s) as Hcase.
    destruct (fix_issue projectPath options issue r s) as [[r1|msg] s1];
      [|discriminate].
    cbn [fst] in Hcase. injection Hcase as Hr1. intros Hloop.
    destruct (IH _ _ _ _ Hloop) as (u & k & f & Hu & Hk & Hf & Su & Sk & Sf).
    cbn [map].
    destruct (fst (spawnSync "cargo" (update_args issue) projectPath
                     (if verbose options then Inherit else Pipe) (world s)))
      as [result|message];
      [destruct (status_is_zero result);
       [|destruct (stderr_not_found result)]|];
      subst r1; cbn [push_updated push_skipped push_failed
                     updated skipped failed] in Hu, Hk, Hf.
    + exists (name issue :: u), k, f. rewrite Hu, Hk, Hf, <- app_assoc.
      repeat split; first [now apply sublist_skip | now apply sublist_cons].
    + exists u, (name issue :: k), f. rewrite Hu, Hk, Hf, <- app_assoc.
      repeat split; first [now apply sublist_skip | now apply sublist_cons].
    + exists u, k, ({| fail_name := name issue;
                       fail_error := stderr_or_unknown result |} :: f).
      rewrite Hu, Hk, Hf, <- app_assoc.
      repeat split; first [now apply sublist_skip | now apply sublist_cons].
    + exists u, k, ({| fail_name := name issue; fail_error := message |} :: f).
      rewrite Hu, Hk, Hf, <- app_assoc.
      repeat split; first [now apply sublist_skip | now apply sublist_cons].
Qed.

(** When every subprocess exits with status 0, the loop adds every name
    to [updated] and nothing to the other lists. *)
Lemma fix_loop_all_updated (projectPath : string) (options : Options)
    (issues : list Issue) :
  (forall (args : list string) (stdio : Stdio) (w : W),
     exists (result : SpawnResult) (w' : W),
       spawnSync "cargo" args projectPath stdio w = (Ok result, w')
       /\ status result = Some 0) ->
  forall (r : FixResults) (s : St W),
  exists s' : St W,
    fix_loop projectPath options issues r s =
    (Ok {| updated := updated r ++ map name issues; failed := failed r;
           skipped := skipped r; configCreated := configCreated r;
           cargoTomlUpdated := cargoTomlUpdated r |}, s').
Proof.
  intros Hcalm. induction issues as [|issue rest IH]; intros r s.
  - exists s. cbn. rewrite app_nil_r. now destruct r.
  - cbn [fix_loop]. unfold bind.
    assert (Hone : exists s1 : St W,
              fix_issue projectPath options issue r s =
              (Ok (push_updated r (name issue)), s1)).
    { destruct s as [w t]. unfold fix_issue. run_calls.
      destruct (Hcalm (update_args issue)
                  (if verbose options then Inherit else Pipe) w)
        as (result & w' & -> & Hstatus).
      unfold status_is_zero. rewrite Hstatus. cbn. eauto. }
    destruct Hone as [s1 ->].
    destruct (IH (push_updated r (name issue)) s1) as [s' ->].
    exists s'. cbn [push_updated updated failed skipped configCreated
                    cargoTomlUpdated map].
    now rewrite <- app_assoc.
Qed.

End ExecutorOrder.

(** X16. An existing configuration file is left alone, whatever the
    issues: when [.cargo/config.toml] exists, [applyFixes] makes one
    existence test and then only the subprocess calls, one per issue in
    order; it writes nothing, creates no directory and returns
    [configCreated = false]. *)
Theorem applyFixes_keeps_existing_config {W : Type} `{Sys W}
    (projectPath : string) (issues : list Issue) (options : Options) (s : St W) :
  existsSync (path_join [projectPath; ".cargo"; "config.toml"]) (world s) = true ->
  exists (r : FixResults) (s' : St W),
    applyFixes projectPath issues options s = (Ok r, s') /\
    trace s' = trace s
               ++ EvExists (path_join [projectPath; ".cargo"; "config.toml"])
               :: map (spawn_event projectPath options) issues /\
    configCreated r = false.
Proof.
  intros Hex.
  destruct (config_step_spec projectPath initial_results s)
    as (r1 & s1 & calls & Hcfg & Htrace1 & _ & _ & _ & _ & Hpresent & _).
  destruct (Hpresent Hex) as (-> & -> & _).
  destruct (fix_loop_spec projectPath options issues initial_results s1)
    as (r2 & s2 & Hloop & Htrace2 & _ & Hcreated).
  exists r2, s2. unfold applyFixes, bind. rewrite Hcfg.
  split; [exact Hloop|]. split; [|exact Hcreated].
  rewrite Htrace2, Htrace1, <- app_assoc. reflexivity.
Qed.

Lemma applyFixes_keeps_existing_config_witness :
  let w := {| files := {[ "app/.cargo/config.toml" := "[net]" ]};
              dirs := ["app"; "app/.cargo"]; read_only := false; script := [] |} in
  let issue := {| name := "blake3"; currentVersion := "1.8.3";
                  maxCompatible := "1.5.0"; firstIncompatible := None;
                  reason := "Requires edition 2024"; usedBy := [];
                  source := None |} in
  let options := {| quiet := false; verbose := true |} in
  exists (r : FixResults) (s' : St MemWorld),
    run (applyFixes "app" [issue] options) w = (Ok r, s') /\
    trace s' = [ EvExists "app/.cargo/config.toml";
                 EvSpawn "cargo" ["update"; "-p"; "blake3"; "--precise"; "1.5.0"]
                   "app" Inherit ] /\
    configCreated r = false.
Proof.
  intros w issue options.
  assert (Hex : existsSync (path_join ["app"; ".cargo"; "config.toml"])
                  (world (mkSt w [])) = true) by (vm_compute; reflexivity).
  exact (applyFixes_keeps_existing_config "app" [issue] options (mkSt w []) Hex).
Defined.

(** X17. The three lists of the aggregate keep the order of the issue
    list: in every environment, [updated], [skipped] and the names of
    [failed] are each a subsequence of the issue names. *)
Theorem applyFixes_keeps_issue_order {W : Type} `{Sys W}
    (projectPath : string) (issues : list Issue) (options : Options) (s : St W) :
  exists (r : FixResults) (s' : St W),
    applyFixes projectPath issues options s = (Ok r, s') /\
    sublist (updated r) (map name issues) /\
    sublist (skipped r) (map name issues) /\
    sublist (map fail_name (failed r)) (map name issues).
Proof.
  destruct (config_step_spec projectPath initial_results s)
    as (r1 & s1 & calls & Hcfg & _ & _ & Hu1 & Hf1 & Hs1 & _).
  destruct (fix_loop_spec projectPath options issues r1 s1)
    as (r2 & s2 & Hloop & _).
  destruct (fix_loop_order projectPath options issues r1 r2 s1 s2 Hloop)
    as (u & k & f & Hu & Hk & Hf & Su & Sk & Sf).
  exists r2, s2. unfold applyFixes, bind. rewrite Hcfg.
  split; [exact Hloop|].
  rewrite Hu, Hk, Hf, Hu1, Hf1, Hs1. cbn [initial_results updated skipped failed app].
  auto.
Qed.

(** X18. When every subprocess exits with status 0, every issue is
    updated: [updated] is the list of the issue names, in order, and
    [skipped] and [failed] are empty. *)
Theorem applyFixes_all_updated {W : Type} `{Sys W}
    (projectPath : string) (issues : list Issue) (options : Options) (s : St W) :
  (forall (args : list string) (stdio : Stdio) (w : W),
     exists (result : SpawnResult) (w' : W),
       spawnSync "cargo" args projectPath stdio w = (Ok result, w')
       /\ status result = Some 0) ->
  exists (r : FixResults) (s' : St W),
    applyFixes projectPath issues options s = (Ok r, s') /\
    updated r = map name issues /\ skipped r = [] /\ failed r = [].
Proof.
  intros Hcalm.
  destruct (config_step_spec projectPath initial_results s)
    as (r1 & s1 & calls & Hcfg & _ & _ & Hu1 & Hf1 & Hs1 & _).
  destruct (fix_loop_all_updated projectPath options issues Hcalm r1 s1)
    as [s2 Hloop].
  eexists _, s2. unfold applyFixes, bind. rewrite Hcfg.
  split; [exact Hloop|]. cbn [updated skipped failed].
  rewrite Hu1, Hf1, Hs1. repeat split.
Qed.

Lemma applyFixes_all_updated_witness :
  let issue n m := {| name := n; currentVersion := "9.9.9"; maxCompatible := m;
                      firstIncompatible := None; reason := "Requires edition 2024";
                      usedBy := []; source := None |} in
  let issues := [issue "blake3" "1.5.0"; issue "zeroize" "1.7.0"] in
  exists (r : FixResults) (s' : St nat),
    applyFixes "app" issues {| quiet := false; verbose := false |} (mkSt 0%nat [])
      = (Ok r, s') /\
    updated r = ["blake3"; "zeroize"] /\ skipped r = [] /\ failed r = [].
Proof.
  intros issue issues.
  assert (Hcalm : forall (args : list string) (stdio : Stdio) (w : nat),
            exists (result : SpawnResult) (w' : nat),
              spawnSync "cargo" args "app" stdio w = (Ok result, w')
              /\ status result = Some 0).
  { intros args stdio w. eexists _, _. split; reflexivity. }
  exact (applyFixes_all_updated "app" issues
           {| quiet := false; verbose := false |} (mkSt 0%nat []) Hcalm).
Defined.

(** ** The command line entry point *)

Lemma applyFixes_returns {W : Type} `{Sys W}
    (projectPath : string) (issues : list Issue) (options : Options) (s : St W) :
  exists (r : FixResults) (s' : St W),
    applyFixes projectPath issues options s = (Ok r, s').
Proof.
  destruct (config_step_spec projectPath initial_results s)
    as (r1 & s1 & calls & Hcfg & _).
  destruct (fix_loop_spec projectPath options issues r1 s1)
    as (r2 & s2 & Hloop & _).
  exists r2, s2. unfold applyFixes, bind. now rewrite Hcfg.
Qed.

(** X19. Only an effective [--fix] changes anything.  When the
    arguments lack [--fix]/[-f], or hold [--check], [--json], [--help]
    or [--version] (or their short forms), [run] leaves the world as it
    found it: its only calls to the environment are existence tests and
    reads of the manifest and of the lockfile of the project path; it
    writes nothing and starts no subprocess, whatever the files hold. *)
Theorem run_read_only {W : Type} `{Sys W}
    (crates : gmap string CrateInfo) (args : list string) (s : St W) :
  let flags := Cli.parse_flags args in
  let cargoTomlPath := path_join [Cli.project_path args; "Cargo.toml"] in
  let cargoLockPath := path_join [Cli.project_path args; "Cargo.lock"] in
  Cli.flag_fix flags = false \/ Cli.flag_check flags = true
  \/ Cli.flag_json flags = true \/ Cli.flag_help flags = true
  \/ Cli.flag_version flags = true ->
  world (snd (Cli.run crates args s)) = world s /\
  exists calls : list Event,
    trace (snd (Cli.run crates args s)) = trace s ++ calls /\
    Forall (fun e => e ∈ [ EvExists cargoTomlPath; EvRead cargoTomlPath;
                           EvExists cargoLockPath; EvRead cargoLockPath ]) calls.
Proof.
  intros flags cargoTomlPath cargoLockPath Hflags.
  assert (Hnothing : world s = world s /\
            exists calls : list Event,
              trace s = trace s ++ calls /\
              Forall (fun e => e ∈ [ EvExists cargoTomlPath; EvRead cargoTomlPath;
                                     EvExists cargoLockPath; EvRead cargoLockPath ])
                     calls).
  { split; [reflexivity|]. exists []. rewrite app_nil_r. split; constructor. }
  pose proof (analyze_frame crates (Cli.project_path args) s) as Hframe.
  cbv zeta in Hframe. fold cargoTomlPath cargoLockPath in Hframe.
  unfold Cli.run. fold flags.
  destruct (Cli.flag_version flags); [exact Hnothing|].
  destruct (Cli.flag_help flags); [exact Hnothing|].
  unfold bind.
  destruct (analyze crates (Cli.project_path args) s) as [[r|msg] s1];
    cbn [snd] in *; [|exact Hframe].
  destruct (Cli.flag_json flags).
  { destruct (Cli.flag_check flags && Cli.has_issues r); exact Hframe. }
  destruct r as [e|e info|p n [|issue issues] info commands patch];
    try exact Hframe.
  destruct (Cli.flag_check flags); [exact Hframe|].
  destruct (Cli.flag_fix flags); [|exact Hframe].
  destruct Hflags as [Hf|[Hf|[Hf|[Hf|Hf]]]]; discriminate Hf.
Qed.

Lemma run_read_only_witness :
  let crates : gmap string CrateInfo :=
    {[ "blake3" := {| crate_maxCompatible := "1.5.0";
                      crate_firstIncompatible := None; crate_reason := None;
                      crate_usedBy := None; crate_priority := None |} ]} in
  let lock := render_lock [ "version = 4"; EmptyString ]
                [ ({| pkg_name := "blake3"; pkg_version := "1.8.3";
                      pkg_source := None |}, [EmptyString]) ] in
  let w := {| files := {[ "app/Cargo.toml" := "[package]";
                          "app/Cargo.lock" := lock ]};
              dirs := ["app"]; read_only := false; script := [] |} in
  let args := ["--fix"; "app"; "--check"] in
  Cli.flag_check (Cli.parse_flags args) = true /\
  world (snd (run (Cli.run crates args) w)) = w /\
  fst (run (Cli.run crates args) w) = Ok (Cli.Exited 1).
Proof.
  intros crates lock w args.
  assert (Hcheck : Cli.flag_check (Cli.parse_flags args) = true) by reflexivity.
  split; [exact Hcheck|]. split.
  - exact (proj1 (run_read_only crates args (mkSt w [])
                    (or_intror (or_introl Hcheck)))).
  - vm_compute. reflexivity.
Defined.

(** X20. How [run] ends, once [analyze] has returned a result (neither
    [--help] nor [--version] given).  With [--json] the process exits
    with 1 only when [--check] is given and there are issues; a failed
    analysis (no manifest, no lockfile) ends with code 0.  Without
    [--json] a failed analysis exits with 1, a success without issue
    ends with 0, and issues exit with 1 under [--check] and end with 0
    otherwise, also after [--fix], whatever the subprocesses did. *)
Theorem run_exit_code {W : Type} `{Sys W}
    (crates : gmap string CrateInfo) (args : list string) (s s1 : St W)
    (r : AnalysisResult) :
  let flags := Cli.parse_flags args in
  let code := Cli.exit_code (fst (Cli.run crates args s)) in
  Cli.flag_version flags = false -> Cli.flag_help flags = false ->
  analyze crates (Cli.project_path args) s = (Ok r, s1) ->
  (Cli.flag_json flags = true ->
   code = if Cli.flag_check flags && Cli.has_issues r then 1 else 0) /\
  (Cli.flag_json flags = true -> success r = false -> code = 0) /\
  (Cli.flag_json flags = false -> success r = false -> code = 1) /\
  (Cli.flag_json flags = false -> success r = true ->
   code = if Cli.has_issues r && Cli.flag_check flags then 1 else 0).
Proof.
  intros flags code Hversion Hhelp Hanalyze. subst code.
  unfold Cli.run. fold flags. rewrite Hversion, Hhelp.
  unfold bind. rewrite Hanalyze.
  destruct (Cli.flag_json flags).
  - split; [intros _|split; [intros _ Hfail|split; discriminate]].
    + destruct (Cli.flag_check flags && Cli.has_issues r); reflexivity.
    + destruct r; try discriminate Hfail; cbn [Cli.has_issues];
        rewrite andb_false_r; reflexivity.
  - split; [discriminate|]. split; [discriminate|].
    split; intros _ Hs.
    + destruct r; try discriminate Hs; reflexivity.
    + destruct r as [e|e info|p n [|issue issues] info commands patch];
        try discriminate Hs; [reflexivity|].
      cbn [Cli.has_issues andb].
      destruct (Cli.flag_check flags); [reflexivity|].
      destruct (Cli.flag_fix flags); [|reflexivity].
      destruct (applyFixes_returns (Cli.project_path args) (issue :: issues)
                  (Cli.fix_options flags) s1) as (fr & s2 & ->).
      reflexivity.
Qed.

Lemma run_exit_code_witness :
  let w := {| files := ∅; dirs := ["app"]; read_only := false; script := [] |} in
  let r := NoManifest "No Cargo.toml found in /work/app" in
  let s1 := mkSt w [EvExists "app/Cargo.toml"] in
  analyze ∅ (Cli.project_path ["app"; "--json"]) (mkSt w []) = (Ok r, s1) /\
  Cli.exit_code (fst (run (Cli.run ∅ ["app"; "--json"]) w)) = 0 /\
  Cli.exit_code (fst (run (Cli.run ∅ ["app"]) w)) = 1.
Proof.
  intros w r s1.
  assert (Hanalyze : analyze ∅ (Cli.project_path ["app"; "--json"]) (mkSt w [])
                     = (Ok r, s1)) by (vm_compute; reflexivity).
  assert (Hanalyze' : analyze ∅ (Cli.project_path ["app"]) (mkSt w [])
                      = (Ok r, s1)) by (vm_compute; reflexivity).
  split; [exact Hanalyze|]. split.
  - exact (proj1 (proj2 (run_exit_code ∅ ["app"; "--json"] (mkSt w []) s1 r
                           eq_refl eq_refl Hanalyze)) eq_refl eq_refl).
  - exact (proj1 (proj2 (proj2 (run_exit_code ∅ ["app"] (mkSt w []) s1 r
                                  eq_refl eq_refl Hanalyze'))) eq_refl eq_refl).
Defined.

Lemma includes_arg_filter (keep : string -> bool) (args : list string)
    (flag : string) :
  keep flag = true ->
  Cli.includes_arg (List.filter keep args) flag = Cli.includes_arg args flag.
Proof.
  intros Hkeep. unfold Cli.includes_arg.
  induction args as [|a r IH]; [reflexivity|].
  cbn [List.filter existsb]. destruct (keep a) eqn:Ea.
  - cbn [existsb]. now rewrite IH.
  - rewrite IH. destruct (String.eqb_spec flag a) as [->|]; [congruence|reflexivity].
Qed.

Lemma project_path_filter (keep : string -> bool) (args : list string) :
  (forall a : string, keep a = false -> Cli.starts_with_dash a = true) ->
  Cli.project_path (List.filter keep args) = Cli.project_path args.
Proof.
  intros Hdash. unfold Cli.project_path. f_equal.
  induction args as [|a r IH]; [reflexivity|].
  cbn [List.filter List.find]. destruct (keep a) eqn:Ea.
  - cbn [List.find]. destruct (negb (Cli.starts_with_dash a)); [reflexivity|exact IH].
  - rewrite (Hdash a Ea). exact IH.
Qed.

(** X21. [--dry-run] and [-d] change nothing: [run] behaves on any
    argument list exactly as on the list without these two flags.  In
    particular [--fix --dry-run] applies the fixes as [--fix] alone
    does. *)
Theorem run_ignores_dry_run {W : Type} `{Sys W}
    (crates : gmap string CrateInfo) (args : list string) (s : St W) :
  Cli.run crates
    (List.filter (fun a => negb (String.eqb a "--dry-run" || String.eqb a "-d"))
       args) s
  = Cli.run crates args s.
Proof.
  set (keep := fun a => negb (String.eqb a "--dry-run" || String.eqb a "-d")).
  assert (Hpath : Cli.project_path (List.filter keep args) = Cli.project_path args).
  { apply project_path_filter. intros a Ha. unfold keep in Ha.
    apply negb_false_iff, orb_true_iff in Ha as [Ha|Ha];
      apply String.eqb_eq in Ha; subst a; reflexivity. }
  unfold Cli.run, Cli.parse_flags, Cli.fix_options.
  cbn [Cli.flag_fix Cli.flag_check Cli.flag_verbose Cli.flag_quiet
       Cli.flag_json Cli.flag_help Cli.flag_version].
  rewrite Hpath, !(includes_arg_filter keep args) by reflexivity.
  reflexivity.
Qed.

(** X22. With an effective [--fix] the commands shown are the commands
    run: when [--fix] is given without [--check], [--json], [--help]
    and [--version], and [analyze] returns a successful result, [run]
    returns (exit code 0) and the command lines of the subprocesses it
    has started are exactly the [commands] of that result, in order. *)
Theorem run_fix_runs_commands {W : Type} `{Sys W}
    (crates : gmap string CrateInfo) (args : list string) (s s1 : St W)
    (projectPath : string) (totalPackages : nat) (issues : list Issue)
    (info : CargoTomlInfo) (commands : list string) (patchSection : string) :
  let flags := Cli.parse_flags args in
  Cli.flag_fix flags = true -> Cli.flag_check flags = false ->
  Cli.flag_json flags = false -> Cli.flag_help flags = false ->
  Cli.flag_version flags = false ->
  analyze crates (Cli.project_path args) s =
    (Ok (Analysis projectPath totalPackages issues info commands patchSection), s1) ->
  fst (Cli.run crates args s) = Ok Cli.Returned /\
  omap command_line (trace (snd (Cli.run crates args s))) =
  omap command_line (trace s) ++ commands.
Proof.
  intros flags Hfix Hcheck Hjson Hhelp Hversion Hanalyze.
  destruct (analyze_frame crates (Cli.project_path args) s)
    as (_ & calls & Htrace & Hcalls).
  rewrite Hanalyze in Htrace. cbn [snd] in Htrace.
  assert (Hquiet : omap command_line calls = []).
  { clear Htrace. induction Hcalls as [|e l He _ IH]; [reflexivity|].
    csimpl. rewrite !elem_of_cons in He. rewrite elem_of_nil in He.
    destruct He as [->|[->|[->|[->|[]]]]]; exact IH. }
  assert (Hcommands : commands = generateCargoUpdateCommands issues).
  { pose proof (analyze_result_fields crates (Cli.project_path args) s _
                  (f_equal fst Hanalyze)) as Hinv.
    exact Hinv. }
  unfold Cli.run. fold flags. rewrite Hversion, Hhelp, Hjson.
  unfold bind. rewrite Hanalyze.
  destruct issues as [|issue issues].
  - unfold ret. cbn [fst snd]. split; [reflexivity|].
    rewrite Htrace, omap_app, Hquiet, Hcommands. reflexivity.
  - rewrite Hcheck, Hfix.
    pose proof (applyFixes_command_lines (Cli.project_path args) (issue :: issues)
                  (Cli.fix_options flags) s1) as Hlines.
    destruct (applyFixes (Cli.project_path args) (issue :: issues)
                (Cli.fix_options flags) s1) as [[fr|msg] s2] eqn:Efix.
    + unfold ret. cbn [fst snd] in *. split; [reflexivity|].
      rewrite Hlines, Htrace, omap_app, Hquiet, app_nil_r, Hcommands. reflexivity.
    + destruct (applyFixes_returns (Cli.project_path args) (issue :: issues)
                  (Cli.fix_options flags) s1) as (fr & s2' & Hret).
      rewrite Hret in Efix. discriminate Efix.
Qed.

Lemma run_fix_runs_commands_witness :
  let crates : gmap string CrateInfo :=
    {[ "blake3" := {| crate_maxCompatible := "1.5.0";
                      crate_firstIncompatible := None; crate_reason := None;
                      crate_usedBy := None; crate_priority := None |} ]} in
  let lock := render_lock [ "version = 4"; EmptyString ]
                [ ({| pkg_name := "blake3"; pkg_version := "1.8.3";
                      pkg_source := None |}, [EmptyString]) ] in
  let w := {| files := {[ "app/Cargo.toml" := "[package]";
                          "app/Cargo.lock" := lock ]};
              dirs := ["app"]; read_only := false; script := [] |} in
  let args := ["--fix"; "--dry-run"; "app"] in
  fst (run (Cli.run crates args) w) = Ok Cli.Returned /\
  omap command_line (trace (snd (run (Cli.run crates args) w))) =
    ["cargo update -p blake3 --precise 1.5.0"].
Proof.
  intros crates lock w args.
  assert (Hanalyze :
    analyze crates (Cli.project_path args) (mkSt w []) =
    (Ok (Analysis "/work/app" 1
           [ {| name := "blake3"; currentVersion := "1.8.3";
                maxCompatible := "1.5.0"; firstIncompatible := None;
                reason := "Requires edition 2024"; usedBy := [];
                source := None |} ]
           (TomlPresent false None false "app/Cargo.toml")
           ["cargo update -p blake3 --precise 1.5.0"]
           ("[patch.crates-io]" +:+ nl +:+ "blake3 = " +:+ dq +:+ "=1.5.0" +:+ dq)),
     mkSt w [ EvExists "app/Cargo.toml"; EvExists "app/Cargo.toml";
              EvRead "app/Cargo.toml"; EvExists "app/Cargo.lock";
              EvRead "app/Cargo.lock" ]))
    by (vm_compute; reflexivity).
  exact (run_fix_runs_commands crates args (mkSt w []) _ _ _ _ _ _ _
           eq_refl eq_refl eq_refl eq_refl eq_refl Hanalyze).
Defined.

(* ================================================================= *)
(** * The lockfile parser against its contract *)

Lemma is_ws_blank_char (c : ascii) : is_ws c = blank_char c.
Proof.
  destruct c as [b0 b1 b2 b3 b4 b5 b6 b7].
  destruct b0, b1, b2, b3, b4, b5, b6, b7; reflexivity.
Qed.

Lemma skip_ws_split (s : string) :
  exists ws : string, s = ws +:+ skip_ws s /\ blank ws = true.
Proof.
  induction s as [|a r (ws & IH & Hws)]; [now exists EmptyString|].
  cbn [skip_ws]. destruct (is_ws a) eqn:Ea.
  - exists (String a ws). split.
    + change (String a ws +:+ skip_ws r) with (String a (ws +:+ skip_ws r)).
      now rewrite <- IH.
    + cbn [blank]. now rewrite <- is_ws_blank_char, Ea, Hws.
  - now exists EmptyString.
Qed.

Lemma skip_ws_blank (ws : string) (c : ascii) (x : string) :
  blank ws = true -> is_ws c = false ->
  skip_ws (ws +:+ String c x) = String c x.
Proof.
  intros Hws Hc. induction ws as [|a r IH].
  - change (EmptyString +:+ String c x) with (String c x).
    cbn [skip_ws]. now rewrite Hc.
  - cbn [blank] in Hws. apply andb_prop in Hws as [Ha Hr].
    change (String a r +:+ String c x) with (String a (r +:+ String c x)).
    cbn [skip_ws]. rewrite is_ws_blank_char, Ha. now apply IH.
Qed.

Lemma span_unquoted_quote (s v rest : string) (q : ascii) :
  span_unquoted s = (v, String q rest) -> q = dquote_char.
Proof.
  revert v. induction s as [|a r IH]; intros v; cbn [span_unquoted].
  - discriminate.
  - destruct (Ascii.eqb_spec a dquote_char) as [->|_].
    + now intros [= _ <- _].
    + destruct (span_unquoted r) as [v' rest'].
      intros [= _ ->]. now apply (IH v').
Qed.

(** A string holds no occurrence of a character exactly when it cannot
    be cut around one. *)
Lemma includes_char_spec (c : ascii) (v : string) :
  includes (String c EmptyString) v = false <->
  forall a b : string, v <> a +:+ String c b.
Proof.
  split.
  - intros Hno a b ->. rewrite includes_char_app, includes_char_cons in Hno.
    rewrite Ascii.eqb_refl, orb_true_r in Hno. discriminate.
  - intros Hcut. induction v as [|x r IH]; [reflexivity|].
    rewrite includes_char_cons.
    destruct (Ascii.eqb_spec c x) as [->|_].
    + exfalso. now apply (Hcut EmptyString r).
    + apply IH. intros a b ->. now apply (Hcut (String x a) b).
Qed.

(** The parser's pattern matches exactly the field lines, and captures
    their value. *)
Lemma match_field_field_line (key line v : string) :
  match_field key line = Some v <-> field_line key line v.
Proof.
  split.
  - unfold match_field, match_key.
    destruct (strip_prefix key line) as [r1|] eqn:E1; [|discriminate].
    apply strip_prefix_app in E1.
    destruct (skip_ws_split r1) as (ws1 & E2 & B1).
    destruct (skip_ws r1) as [|c r2]; [discriminate|].
    destruct (Ascii.eqb_spec c "=") as [->|_]; [|discriminate].
    destruct (skip_ws_split r2) as (ws2 & E3 & B2).
    destruct (skip_ws r2) as [|c' r3]; [discriminate|].
    destruct (Ascii.eqb_spec c' dquote_char) as [->|_]; [|discriminate].
    destruct (span_unquoted r3) as [[|v0 v'] [|q rest]] eqn:E4; try discriminate.
    intros [= <-].
    pose proof (span_unquoted_quote _ _ _ _ E4) as ->.
    apply span_unquoted_spec in E4 as [E4 Hq].
    exists ws1, ws2, rest.
    split; [|split; [exact B1|split; [exact B2|split; [discriminate|]]]].
    + rewrite E1, E2, E3, E4. reflexivity.
    + now apply includes_char_spec.
  - intros (ws1 & ws2 & rest & -> & B1 & B2 & Hne & Hq).
    apply includes_char_spec in Hq.
    unfold match_field, match_key. rewrite strip_prefix_append.
    change ("=" +:+ ws2 +:+ quote_mark +:+ v +:+ quote_mark +:+ rest)
      with (String "=" (ws2 +:+ String dquote_char
                          (v +:+ String dquote_char rest))).
    rewrite (skip_ws_blank ws1 "=" _ B1 eq_refl).
    change (Ascii.eqb "=" "=") with true. cbv iota.
    rewrite (skip_ws_blank ws2 dquote_char _ B2 eq_refl).
    rewrite Ascii.eqb_refl, (span_unquoted_closed v rest Hq).
    destruct v; [contradiction|reflexivity].
Qed.

Lemma unlines_cons_char (a : ascii) (h : string) (t : list string) :
  unlines (String a h :: t) = String a (unlines (h :: t)).
Proof. destruct t; reflexivity. Qed.

(** Splitting a text at its line feeds gives its lines. *)
Lemma unlines_split (content : string) :
  unlines (split newline_char content) = content.
Proof.
  induction content as [|a r IH]; [reflexivity|].
  cbn [split]. pose proof (split_not_nil newline_char r) as Hne.
  destruct (Ascii.eqb_spec a newline_char) as [->|_].
  - destruct (split newline_char r) as [|h t]; [contradiction|].
    change (unlines (EmptyString :: h :: t))
      with (String newline_char (unlines (h :: t))).
    now rewrite IH.
  - destruct (split newline_char r) as [|h t]; [contradiction|].
    now rewrite unlines_cons_char, IH.
Qed.

(** The lines are what precedes the first delimiter, then each block
    behind its delimiter; no line inside is a delimiter. *)
Lemma segments_decompose (lines : list string) :
  exists (preamble : list string),
    segments lines = preamble :: blocks lines /\
    lines = preamble ++ concat (map (cons "[[package]]") (blocks lines)) /\
    Forall (fun l => l <> "[[package]]") preamble /\
    Forall (Forall (fun l => l <> "[[package]]")) (blocks lines).
Proof.
  unfold blocks. induction lines as [|line rest (pre & Hseg & Hlines & Hpre & Hblocks)].
  - exists []. repeat split; constructor.
  - cbn [segments]. rewrite Hseg in *. cbn [tail] in *.
    destruct (String.eqb_spec line delimiter) as [->|Hne].
    + exists []. cbn [tail map concat app].
      split; [reflexivity|]. split; [now rewrite <- Hlines|].
      split; [constructor|]. constructor; assumption.
    + exists (line :: pre). cbn [tail app].
      split; [reflexivity|]. split; [now rewrite <- Hlines|].
      split; [constructor; assumption|assumption].
Qed.

(** C4. For every lockfile that exists with content [content],
    [parseCargoLock] returns, without raising, exactly one record per
    block that follows a [[[package]]] line and contains both a name
    line and a version line, in source order; a block that lacks either
    gives no record.  The lines are those of the content between its
    line feeds; a block is the run of lines after a line that is
    exactly [[[package]]], up to the next such line; a name, version or
    source line is a field line in the sense of [field_line], and the
    last one of a block gives the field of the record. *)
Theorem parseCargoLock_blocks {W : Type} `{Sys W}
    (lockPath content : string) (s : St W) :
  existsSync lockPath (world s) = true ->
  readFileSync lockPath (world s) = Ok content ->
  exists (packages : list PackageRecord) (lines preamble : list string),
    fst (parseCargoLock lockPath s) = Ok (Some packages) /\
    packages = parse_content content /\
    lines = split newline_char content /\
    unlines lines = content /\
    Forall (fun line => forall a b : string,
                          line <> a +:+ line_break +:+ b) lines /\
    delimiter = "[[package]]" /\
    lines = preamble ++ concat (map (cons "[[package]]") (blocks lines)) /\
    Forall (fun l => l <> "[[package]]") preamble /\
    Forall (Forall (fun l => l <> "[[package]]")) (blocks lines) /\
    (forall key line v : string,
       match_field key line = Some v <-> field_line key line v) /\
    (forall (key : string) (block : list string),
       has_field key block = true <->
       exists line v : string, line ∈ block /\ field_line key line v) /\
    (forall (key : string) (block : list string) (line v : string),
       field_line key line v ->
       Forall (fun l => forall v' : string, ~ field_line key l v') block ->
       forall before : list string,
       field_of key (before ++ line :: block) = Some v) /\
    packages = omap block_record (blocks lines) /\
    length packages = length (List.filter has_name_and_version (blocks lines)) /\
    (forall block : list string,
       is_Some (block_record block) <-> has_name_and_version block = true) /\
    (forall (block : list string) (r : PackageRecord),
       block_record block = Some r ->
       field_of "name" block = Some (pkg_name r) /\
       field_of "version" block = Some (pkg_version r) /\
       field_of "source" block = pkg_source r).
Proof.
  intros Hex Hread.
  destruct (segments_decompose (split newline_char content))
    as (preamble & _ & Hlines & Hpre & Hblocks).
  exists (parse_content content), (split newline_char content), preamble.
  split.
  { unfold parseCargoLock, bind, fs_existsSync, fs_readFileSync, bind, record, ret.
    simpl. rewrite Hex. simpl. now rewrite Hread. }
  split; [reflexivity|]. split; [reflexivity|].
  split; [apply unlines_split|].
  split.
  { eapply Forall_impl; [apply (split_pieces newline_char content)|].
    intros line Hline. now apply includes_char_spec. }
  split; [reflexivity|]. split; [exact Hlines|].
  split; [exact Hpre|]. split; [exact Hblocks|].
  split; [apply match_field_field_line|].
  split.
  { intros key block. unfold has_field. rewrite existsb_exists. split.
    - intros (line & Hin & Hm).
      destruct (match_field key line) as [v|] eqn:E; [|discriminate].
      exists line, v. split; [now apply list_elem_of_In|].
      now apply match_field_field_line.
    - intros (line & v & Hin & Hf). exists line.
      split; [now apply list_elem_of_In|].
      apply match_field_field_line in Hf. now rewrite Hf. }
  split.
  { intros key block line v Hf Hnone before. unfold field_of.
    apply match_field_field_line in Hf.
    rewrite omap_app. csimpl. rewrite Hf.
    assert (Hempty : omap (match_field key) block = []).
    { clear -Hnone. induction Hnone as [|l block Hl _ IH]; [reflexivity|].
      csimpl. destruct (match_field key l) as [v'|] eqn:E; [|exact IH].
      exfalso. apply (Hl v'). now apply match_field_field_line. }
    simpl. rewrite Hempty. apply (last_snoc v). }
  split; [apply parse_content_spec|].
  split.
  { rewrite parse_content_spec. unfold spec_parse.
    apply length_omap_filter, block_record_has_both. }
  split; [apply block_record_has_both|].
  intros block r. unfold block_record.
  destruct (field_of "name" block) as [n|]; [|discriminate].
  destruct (field_of "version" block) as [v|]; [|discriminate].
  intros [= <-]. repeat split.
Qed.

Lemma parseCargoLock_blocks_witness :
  let content :=
    unlines [ "version = 4"; EmptyString;
              "[[package]]";
              "name = " +:+ quote_mark +:+ "blake3" +:+ quote_mark;
              "version = " +:+ quote_mark +:+ "1.8.3" +:+ quote_mark;
              EmptyString;
              "[[package]]";
              "name = " +:+ quote_mark +:+ "nameless" +:+ quote_mark;
              EmptyString;
              "[[package]]";
              "name = " +:+ quote_mark +:+ "serde" +:+ quote_mark;
              "version   =" +:+ quote_mark +:+ "0.9.0" +:+ quote_mark;
              "version = " +:+ quote_mark +:+ "1.0.0" +:+ quote_mark +:+ " # pinned";
              "source = " +:+ quote_mark +:+ "registry" +:+ quote_mark;
              EmptyString ] in
  let w := {| files := {[ "app/Cargo.lock" := content ]};
              dirs := ["app"]; read_only := false; script := [] |} in
  existsSync "app/Cargo.lock" w = true /\
  readFileSync "app/Cargo.lock" w = Ok content /\
  fst (run (parseCargoLock "app/Cargo.lock") w) =
  Ok (Some [ {| pkg_name := "blake3"; pkg_version := "1.8.3";
                pkg_source := None |};
             {| pkg_name := "serde"; pkg_version := "1.0.0";
                pkg_source := Some "registry" |} ]).
Proof.
  intros content w.
  assert (Hex : existsSync "app/Cargo.lock" (world (mkSt w [])) = true)
    by (vm_compute; reflexivity).
  assert (Hread : readFileSync "app/Cargo.lock" (world (mkSt w [])) = Ok content)
    by (vm_compute; reflexivity).
  split; [exact Hex|split; [exact Hread|]].
  destruct (parseCargoLock_blocks "app/Cargo.lock" content (mkSt w []) Hex Hread)
    as (packages & lines & preamble & Hrun & _ & -> & _ & _ & _ & _ & _ & _ & _
        & _ & _ & -> & _).
  unfold run. rewrite Hrun. vm_compute. reflexivity.
Defined.
